(** * HAR capture over the Chrome DevTools protocol: model of [main.go]

    The program listens to the network and lifecycle events of one page
    load, turns every request and response event into a HAR page or entry
    inside a goroutine of its own, funnels those records through the
    unbuffered channel [harCh] into the log, and writes the log to
    [output.har] once the channel has been closed.

    The development follows the source top-down:
    - the values of the imported packages the program touches ([har],
      [network], [page], and the two formatting routines of the Go
      standard library it calls);
    - [headersToHAR], [processRequest], [processResponse];
    - [main] as a transition system: the listener callback, the producer
      goroutines, the channel, the drain loop and the statements after
      it, driven by a schedule. *)

From Stdlib Require Import Ascii String ZArith NArith Lia.
From stdpp Require Import base decidable option list strings pretty gmap fin_maps.

Local Open Scope string_scope.
Local Open Scope list_scope.

(** ** Values held by [interface{}] header entries

    [network.Headers] is [map[string]interface{}]: a header value has any
    dynamic type.  The constructors are the untyped nil, booleans,
    integers, strings, [[]string] and [[]interface{}]; [headersToHAR]
    tells [[]string] from everything else and nothing more. *)
#[warnings="-register-all"]
Inductive GoValue :=
  | GNil
  | GBool (b : bool)
  | GInt (n : Z)
  | GString (s : string)
  | GStrings (l : list string)
  | GSlice (l : list GoValue).

(** [strings.Join(l, sep)]. *)
Fixpoint join (sep : string) (l : list string) : string :=
  match l with
  | [] => ""
  | [s] => s
  | s :: rest => s +:+ sep +:+ join sep rest
  end.

(** [fmt.Sprint(v)] for a single operand, i.e. the [%v] verb: strings are
    printed as they are, nil as [<nil>], slices as their elements between
    brackets separated by one space. *)
Fixpoint Sprint (v : GoValue) : string :=
  match v with
  | GNil => "<nil>"
  | GBool b => if b then "true" else "false"
  | GInt n => pretty n
  | GString s => s
  | GStrings l => "[" +:+ join " " l +:+ "]"
  | GSlice l => "[" +:+ join " " (map Sprint l) +:+ "]"
  end.

(** ** Wall-clock time and [time.RFC3339Nano]

    [ev.WallTime.Time()] is a [time.Time]; [Format] reads its calendar
    date, clock, nanosecond and zone offset (seconds east of UTC). *)
Module time.

Record Time := {
  Year : Z;
  Month : N;
  Day : N;
  Hour : N;
  Minute : N;
  Second : N;
  Nanosecond : N;
  ZoneOffset : Z
}.

(** Left padding with zeros up to [width] characters. *)
Definition zeroPad (width : nat) (s : string) : string :=
  String.concat "" (replicate (width - String.length s) "0") +:+ s.

(** [appendInt]: decimal digits, zero padded, sign in front. *)
Definition appendInt (x : Z) (width : nat) : string :=
  if decide (x < 0)%Z
  then "-" +:+ zeroPad width (pretty (Z.abs_N x))
  else zeroPad width (pretty (Z.to_N x)).

(** Removal of the trailing zeros of a digit string. *)
Fixpoint trimZeros (s : string) : string :=
  match s with
  | EmptyString => EmptyString
  | String c rest =>
      let rest' := trimZeros rest in
      if decide (rest' = "" /\ c = "0"%char) then "" else String c rest'
  end.

(** The [.999999999] element of a layout: up to nine fractional digits,
    trailing zeros removed, nothing at all for a whole second. *)
Definition formatNano (nanosec : N) : string :=
  let digits := trimZeros (zeroPad 9 (pretty nanosec)) in
  if decide (digits = "") then "" else "." +:+ digits.

(** The [Z07:00] element of a layout. *)
Definition formatZone (offset : Z) : string :=
  if decide (offset = 0)%Z then "Z"
  else
    let zone := (offset `quot` 60)%Z in
    let sign := if decide (zone < 0)%Z then "-" else "+" in
    let zone := Z.abs zone in
    sign +:+ appendInt (zone `quot` 60) 2 +:+ ":" +:+ appendInt (zone `rem` 60) 2.

(** [t.Format(time.RFC3339Nano)], layout
    [2006-01-02T15:04:05.999999999Z07:00]. *)
Definition FormatRFC3339Nano (t : Time) : string :=
  appendInt (Year t) 4 +:+ "-" +:+
  appendInt (Z.of_N (Month t)) 2 +:+ "-" +:+
  appendInt (Z.of_N (Day t)) 2 +:+ "T" +:+
  appendInt (Z.of_N (Hour t)) 2 +:+ ":" +:+
  appendInt (Z.of_N (Minute t)) 2 +:+ ":" +:+
  appendInt (Z.of_N (Second t)) 2 +:+
  formatNano (Nanosecond t) +:+
  formatZone (ZoneOffset t).

End time.

(** ** Package [har]: the records the program builds

    The fields are those the program sets; every field it leaves out of a
    literal keeps its zero value in all records alike. *)
Module har.

Record NameValuePair := {
  Name : string;
  Value : string
}.

Record Request := {
  Method : string;
  URL : string;
  Headers : list NameValuePair
}.

Record Page := {
  ID : string;
  PageStartedDateTime : string;
  Title : string
}.

(** [Request] is a pointer field: [None] is the nil pointer of the zero
    value [har.Entry{}]. *)
Record Entry := {
  Pageref : string;
  StartedDateTime : string;
  EntryRequest : option Request
}.

Record Creator := {
  CreatorName : string;
  CreatorVersion : string;
  CreatorComment : string
}.

Record Log := {
  Version : string;
  LogCreator : Creator;
  Browser : Creator;
  Pages : list Page;
  Entries : list Entry
}.

(** The zero values [har.Page{}] and [har.Entry{}]. *)
Definition zeroPage : Page :=
  {| ID := ""; PageStartedDateTime := ""; Title := "" |}.
Definition zeroEntry : Entry :=
  {| Pageref := ""; StartedDateTime := ""; EntryRequest := None |}.

End har.

(** ** Packages [network] and [page]: the driver's events

    [Type_] is the field [Type] of the event, [EvRequest] its field
    [Request]; [Request] and [WallTime] are pointers the protocol always
    fills. *)
Module network.

(** [type ResourceType string]. *)
Definition ResourceType := string.
Definition ResourceTypeDocument : ResourceType := "Document".

Record Request := {
  URL : string;
  Method : string;
  Headers : gmap string GoValue
}.

Record EventRequestWillBeSent := {
  RequestID : string;
  EvRequest : Request;
  WallTime : time.Time;
  Type_ : ResourceType
}.

Record EventResponseReceived := {
  RespRequestID : string;
  RespType : ResourceType
}.

End network.

Module page.

Record EventLifecycleEvent := {
  Name : string
}.

End page.

(** ** Iteration order of a map range

    Go leaves the order of [for k, v := range m] unspecified and changes it
    from one loop to the next.  A loop is therefore run under a list of
    [picks]: each pick selects (modulo the number of keys left) the next
    key to visit; keys left when the picks run out are visited in the
    order of [map_to_list]. *)
Fixpoint rangeOrder {A} (picks : list nat) (l : list A) : list A :=
  match picks with
  | [] => l
  | i :: picks' =>
      let k := i mod length l in
      match l !! k with
      | Some x => x :: rangeOrder picks' (delete k l)
      | None => l
      end
  end.

Definition mapRange (picks : list nat) (m : gmap string GoValue)
  : list (string * GoValue) :=
  rangeOrder picks (map_to_list m).

(** ** [headersToHAR] (main.go, lines 142-160)

    The outer loop ranges over the map, the inner loop over a [[]string]
    value; [values.([]string)] succeeds for the dynamic type [[]string]
    and for no other. *)
Definition headersToHAR (picks : list nat) (headers : gmap string GoValue)
  : list har.NameValuePair :=
  foldl (fun harHeaders '(name, values) =>
           match values with
           | GStrings arr =>
               foldl (fun harHeaders value =>
                        harHeaders ++ [ {| har.Name := name; har.Value := value |} ])
                     harHeaders arr
           | _ =>
               harHeaders ++ [ {| har.Name := name; har.Value := Sprint values |} ]
           end)
        [] (mapRange picks headers).

(** ** Values sent on [harCh]

    The channel has element type [interface{}]; the program only ever sends
    [har.Page] and [har.Entry] values on it. *)
Inductive HarData :=
  | DPage (p : har.Page)
  | DEntry (e : har.Entry).

(** ** [processRequest] (main.go, lines 109-130)

    The result is the sequence of values the goroutine sends on [harCh].
    [picks] is the iteration order of the header map inside
    [headersToHAR]. *)
Definition processRequest (picks : list nat) (ev : network.EventRequestWillBeSent)
  : list HarData :=
  if decide (network.Type_ ev = network.ResourceTypeDocument) then
    [ DPage {| har.ID := "page_" +:+ network.RequestID ev;
               har.PageStartedDateTime := time.FormatRFC3339Nano (network.WallTime ev);
               har.Title := network.URL (network.EvRequest ev) |} ]
  else
    [ DEntry {| har.Pageref := "page_" +:+ network.RequestID ev;
                har.StartedDateTime := time.FormatRFC3339Nano (network.WallTime ev);
                har.EntryRequest := Some
                  {| har.Method := network.Method (network.EvRequest ev);
                     har.URL := network.URL (network.EvRequest ev);
                     har.Headers :=
                       headersToHAR picks (network.Headers (network.EvRequest ev)) |} |} ].

(** ** [processResponse] (main.go, lines 133-140) *)
Definition processResponse (ev : network.EventResponseReceived) : list HarData :=
  if decide (network.RespType ev = network.ResourceTypeDocument) then
    [ DPage har.zeroPage ]
  else
    [ DEntry har.zeroEntry ].

(** ** The run of [main] (main.go, lines 17-107)

    The driver, the listener callback, the producer goroutines and the
    main goroutine run concurrently.  A run is a sequence of actions
    chosen by a schedule; the state records what the actions read and
    write.  Main advances one stretch at a time ([mainStep]), so that the
    listener and the goroutines can act between its write of the file, its
    log call and its exit. *)

(** What the driver hands to the callback of [chromedp.ListenTarget];
    [OtherEvent] stands for every event type without a case in the type
    switch of the callback. *)
Inductive Event :=
  | RequestWillBeSent (ev : network.EventRequestWillBeSent)
  | ResponseReceived (ev : network.EventResponseReceived)
  | LifecycleEvent (ev : page.EventLifecycleEvent)
  | OtherEvent.

Inductive ChanState := ChanOpen | ChanClosed.

(** The two run-time panics of Go channels; an unrecovered panic in any
    goroutine ends the process. *)
Inductive RuntimePanic := SendOnClosedChannel | CloseOfClosedChannel.

Inductive LogLine :=
  | Warn (msg : string)
  | Info (msg : string).

(** Where the main goroutine stands: inside [chromedp.Run] (line 59); in
    the range loop over [harCh] (lines 83-90); past [os.WriteFile] with
    the success line still to log (between lines 100 and 106); past its
    log call, returning, with the deferred [cancel] calls of lines 27, 33
    and 37 still running; or returned, the process having exited. *)
Inductive MainPC := Navigating | Draining | Written | Returning | Returned.

(** Results of the calls into the outside world: the error (if any) of
    [chromedp.Run], [json.MarshalIndent] and [os.WriteFile]. *)
Record Env := {
  navigateErr : option string;
  marshalErr : option string;
  writeFileErr : option string
}.

(** [goroutines]: for each producer goroutine started by the listener,
    the values it has still to send on [harCh] (none left: it has
    returned).  [outputFile]: the HAR object whose encoding has been
    written to [output.har].  [accepted] is a history variable: the values
    the range loop has received so far, in receive order. *)
Record State := {
  harCh : ChanState;
  goroutines : list (list HarData);
  pc : MainPC;
  harObject : har.Log;
  slog : list LogLine;
  outputFile : option har.Log;
  panicked : option RuntimePanic;
  events : list Event;
  accepted : list HarData
}.

(** The literal of lines 65-80. *)
Definition emptyLog : har.Log :=
  {| har.Version := "1.2";
     har.Browser := {| har.CreatorName := "Google Chrome";
                       har.CreatorVersion := "90.0.4430.93";
                       har.CreatorComment := "" |};
     har.LogCreator := {| har.CreatorName := "chromedp";
                          har.CreatorVersion := "0.1.0";
                          har.CreatorComment := "HAR capture" |};
     har.Pages := [];
     har.Entries := [] |}.

Definition init (evs : list Event) : State :=
  {| harCh := ChanOpen; goroutines := []; pc := Navigating;
     harObject := emptyLog; slog := []; outputFile := None;
     panicked := None; events := evs; accepted := [] |}.

(** Field updates. *)
Definition setEvents (evs : list Event) (s : State) : State :=
  {| harCh := harCh s; goroutines := goroutines s; pc := pc s;
     harObject := harObject s; slog := slog s; outputFile := outputFile s;
     panicked := panicked s; events := evs; accepted := accepted s |}.

Definition spawn (g : list HarData) (s : State) : State :=
  {| harCh := harCh s; goroutines := goroutines s ++ [g]; pc := pc s;
     harObject := harObject s; slog := slog s; outputFile := outputFile s;
     panicked := panicked s; events := events s; accepted := accepted s |}.

Definition setChan (c : ChanState) (s : State) : State :=
  {| harCh := c; goroutines := goroutines s; pc := pc s;
     harObject := harObject s; slog := slog s; outputFile := outputFile s;
     panicked := panicked s; events := events s; accepted := accepted s |}.

Definition panic (p : RuntimePanic) (s : State) : State :=
  {| harCh := harCh s; goroutines := goroutines s; pc := pc s;
     harObject := harObject s; slog := slog s; outputFile := outputFile s;
     panicked := Some p; events := events s; accepted := accepted s |}.

Definition setPc (c : MainPC) (s : State) : State :=
  {| harCh := harCh s; goroutines := goroutines s; pc := c;
     harObject := harObject s; slog := slog s; outputFile := outputFile s;
     panicked := panicked s; events := events s; accepted := accepted s |}.

Definition logLine (l : LogLine) (s : State) : State :=
  {| harCh := harCh s; goroutines := goroutines s; pc := pc s;
     harObject := harObject s; slog := slog s ++ [l]; outputFile := outputFile s;
     panicked := panicked s; events := events s; accepted := accepted s |}.

Definition writeFile (s : State) : State :=
  {| harCh := harCh s; goroutines := goroutines s; pc := pc s;
     harObject := harObject s; slog := slog s; outputFile := Some (harObject s);
     panicked := panicked s; events := events s; accepted := accepted s |}.

(** One iteration of the range loop (lines 84-89): the type switch
    appends a page to [Pages], an entry to [Entries]. *)
Definition appendData (data : HarData) (log : har.Log) : har.Log :=
  match data with
  | DPage p =>
      {| har.Version := har.Version log; har.LogCreator := har.LogCreator log;
         har.Browser := har.Browser log;
         har.Pages := har.Pages log ++ [p]; har.Entries := har.Entries log |}
  | DEntry e =>
      {| har.Version := har.Version log; har.LogCreator := har.LogCreator log;
         har.Browser := har.Browser log;
         har.Pages := har.Pages log; har.Entries := har.Entries log ++ [e] |}
  end.

(** The rendezvous of goroutine [i] with the range loop: the value passes
    from the sender to the loop body. *)
Definition receive (i : nat) (data : HarData) (rest : list HarData) (s : State)
  : State :=
  {| harCh := harCh s; goroutines := <[i := rest]> (goroutines s); pc := pc s;
     harObject := appendData data (harObject s); slog := slog s;
     outputFile := outputFile s; panicked := panicked s; events := events s;
     accepted := accepted s ++ [data] |}.

(** [close(harCh)]: closing a closed channel panics. *)
Definition closeChan (s : State) : State :=
  match harCh s with
  | ChanOpen => setChan ChanClosed s
  | ChanClosed => panic CloseOfClosedChannel s
  end.

(** The callback given to [chromedp.ListenTarget] (lines 43-56). *)
Definition listener (picks : list nat) (ev : Event) (s : State) : State :=
  match ev with
  | RequestWillBeSent ev => spawn (processRequest picks ev) s
  | ResponseReceived ev => spawn (processResponse ev) s
  | LifecycleEvent ev =>
      if decide (page.Name ev = "InteractiveTime") then closeChan s else s
  | OtherEvent => s
  end.

(** One stretch of main, up to and including its next visible effect;
    the listener and the producer goroutines can run before and after it.
    - Inside [chromedp.Run] (lines 59-63): the call returns; on an error
      main logs the warning and starts to return.
    - In the range loop: with [harCh] open main waits; with [harCh] closed
      it leaves the loop, encodes the log and writes the file (lines
      92-104), or logs the warning of the call that failed and starts to
      return.  Leaving the loop and encoding change nothing another
      goroutine can see, so they are one stretch with the write.
    - Past the write: main logs the success line (line 106) and starts to
      return.
    - Returning: the deferred calls end and the process exits. *)
Definition mainStep (env : Env) (s : State) : option State :=
  match pc s with
  | Navigating =>
      match navigateErr env with
      | Some err =>
          Some (setPc Returning (logLine (Warn ("error navigating: " +:+ err)) s))
      | None => Some (setPc Draining s)
      end
  | Draining =>
      match harCh s with
      | ChanOpen => None
      | ChanClosed =>
          match marshalErr env with
          | Some err =>
              Some (setPc Returning
                      (logLine (Warn ("error marshaling HAR object: " +:+ err)) s))
          | None =>
              match writeFileErr env with
              | Some err =>
                  Some (setPc Returning
                          (logLine (Warn ("error writing HAR file: " +:+ err)) s))
              | None => Some (setPc Written (writeFile s))
              end
          end
      end
  | Written =>
      Some (setPc Returning (logLine (Info "HAR file generated successfully.") s))
  | Returning => Some (setPc Returned s)
  | Returned => None
  end.

(** Main goes on, stretch after stretch, while it is past the loop. *)
Fixpoint finish (fuel : nat) (env : Env) (s : State) : State :=
  match fuel with
  | O => s
  | S fuel' =>
      match pc s with
      | Written | Returning =>
          match mainStep env s with
          | Some s' => finish fuel' env s'
          | None => s
          end
      | _ => s
      end
  end.

(** Main runs with no other goroutine scheduled in between: one stretch,
    and on from there to its exit if that stretch took it past the loop
    (at most two more stretches: the success line and the exit). *)
Definition mainRuns (env : Env) (s : State) : option State :=
  match mainStep env s with
  | Some s' => Some (finish 2 env s')
  | None => None
  end.

(** The process lives until main has returned or a goroutine has
    panicked. *)
Definition alive (s : State) : bool :=
  match panicked s, pc s with
  | None, Returned => false
  | None, _ => true
  | Some _, _ => false
  end.

(** The capture is under way: main is inside [chromedp.Run] or in the
    range loop and no goroutine has panicked. *)
Definition running (s : State) : bool :=
  match panicked s, pc s with
  | None, Navigating | None, Draining => true
  | _, _ => false
  end.

(** The actions of a run. *)
Inductive Action :=
  | Dispatch (picks : list nat)
  | NavigateReturns
  | Send (i : nat)
  | RangeEnds
  | MainStep.

(** [step env a s] is the state after action [a], [None] when [a] cannot
    happen in [s]:
    - [Dispatch picks]: the driver calls the listener with its next event;
    - [MainStep]: main executes its next stretch;
    - [Send i]: goroutine [i] executes [harCh <- v].  On a closed channel
      the send panics; on the open channel it needs the range loop as
      receiver ([harCh] is unbuffered) and blocks otherwise;
    - [NavigateReturns]: [chromedp.Run] returns and main runs on alone, to
      the loop or, on an error, to its exit;
    - [RangeEnds]: the range loop finds [harCh] closed and main runs on
      alone to its exit.
    The last two are runs of [MainStep] with nothing scheduled in
    between. *)
Definition step (env : Env) (a : Action) (s : State) : option State :=
  if alive s then
    match a with
    | Dispatch picks =>
        match events s with
        | [] => None
        | ev :: rest => Some (listener picks ev (setEvents rest s))
        end
    | MainStep => mainStep env s
    | NavigateReturns =>
        match pc s with
        | Navigating => mainRuns env s
        | _ => None
        end
    | Send i =>
        match goroutines s !! i with
        | Some (data :: rest) =>
            match harCh s, pc s with
            | ChanClosed, _ => Some (panic SendOnClosedChannel s)
            | ChanOpen, Draining => Some (receive i data rest s)
            | ChanOpen, _ => None
            end
        | _ => None
        end
    | RangeEnds =>
        match pc s with
        | Draining => mainRuns env s
        | _ => None
        end
    end
  else None.

(** A run under a schedule. *)
Fixpoint exec (env : Env) (sched : list Action) (s : State) : option State :=
  match sched with
  | [] => Some s
  | a :: sched' =>
      match step env a s with
      | Some s' => exec env sched' s'
      | None => None
      end
  end.

(** ** Vocabulary of the statements *)

(** The states [mainRuns] leads to: from [chromedp.Run] to the loop or,
    on an error, to the exit with the warning logged; from the closed
    loop to the exit with the file written and the success line logged,
    or with the warning of the call that failed. *)
Definition pastNavigate (env : Env) (s : State) : State :=
  match navigateErr env with
  | Some err => setPc Returned (logLine (Warn ("error navigating: " +:+ err)) s)
  | None => setPc Draining s
  end.

Definition pastLoop (env : Env) (s : State) : State :=
  match marshalErr env with
  | Some err =>
      setPc Returned (logLine (Warn ("error marshaling HAR object: " +:+ err)) s)
  | None =>
      match writeFileErr env with
      | Some err =>
          setPc Returned (logLine (Warn ("error writing HAR file: " +:+ err)) s)
      | None =>
          setPc Returned
            (logLine (Info "HAR file generated successfully.") (writeFile s))
      end
  end.

(** The values, in output order, of the pairs that carry a given name. *)
Definition valuesNamed (name : string) (out : list har.NameValuePair)
  : list string :=
  har.Value <$> filter (fun p => har.Name p = name) out.

(** The pairs one header contributes: the body of the outer loop of
    [headersToHAR], read as a function of the header. *)
Definition pairsOf (h : string * GoValue) : list har.NameValuePair :=
  match h.2 with
  | GStrings arr => (fun value => {| har.Name := h.1; har.Value := value |}) <$> arr
  | v => [ {| har.Name := h.1; har.Value := Sprint v |} ]
  end.

(** A header value that is a list, of whatever element type, and its
    elements. *)
Definition listElements (v : GoValue) : option (list GoValue) :=
  match v with
  | GStrings l => Some (GString <$> l)
  | GSlice l => Some l
  | _ => None
  end.

(** The reading of the normalizer's contract in which every list value is
    flattened: one pair per element, in order, each element in its textual
    form. *)
Definition flattensEveryList (picks : list nat) (headers : gmap string GoValue)
  (name : string) : Prop :=
  forall v elems,
    headers !! name = Some v ->
    listElements v = Some elems ->
    valuesNamed name (headersToHAR picks headers) = Sprint <$> elems.

(** The reading in which every empty list value drops its header. *)
Definition dropsEveryEmptyList (picks : list nat) (headers : gmap string GoValue)
  (name : string) : Prop :=
  forall v,
    headers !! name = Some v ->
    listElements v = Some [] ->
    forall p, p ∈ headersToHAR picks headers -> har.Name p <> name.

(** The pages and the entries among the values received from [harCh]. *)
Definition pagesOf (ds : list HarData) : list har.Page :=
  omap (fun d => match d with DPage p => Some p | DEntry _ => None end) ds.

Definition entriesOf (ds : list HarData) : list har.Entry :=
  omap (fun d => match d with DEntry e => Some e | DPage _ => None end) ds.

(** Request-sent events of a driver sequence, by resource type. *)
Definition isDocumentRequest (ev : Event) : bool :=
  match ev with
  | RequestWillBeSent r =>
      bool_decide (network.Type_ r = network.ResourceTypeDocument)
  | _ => false
  end.

Definition isOtherRequest (ev : Event) : bool :=
  match ev with
  | RequestWillBeSent r =>
      negb (bool_decide (network.Type_ r = network.ResourceTypeDocument))
  | _ => false
  end.

Definition documentRequests (evs : list Event) : nat :=
  length (List.filter isDocumentRequest evs).

Definition otherRequests (evs : list Event) : nat :=
  length (List.filter isOtherRequest evs).

(** The lifecycle event on which the listener closes [harCh]. *)
Definition isInteractiveTime (ev : Event) : Prop :=
  match ev with
  | LifecycleEvent l => page.Name l = "InteractiveTime"
  | _ => False
  end.

(** No action can happen: the process neither moves nor ends. *)
Definition stuck (env : Env) (s : State) : Prop :=
  forall a, step env a s = None.

(** The log always holds what has been received; the file, once written,
    holds that log. *)
Definition logInv (s : State) : Prop :=
  har.Pages (harObject s) = pagesOf (accepted s) /\
  har.Entries (harObject s) = entriesOf (accepted s) /\
  (pc s = Navigating \/ pc s = Draining -> outputFile s = None) /\
  (forall h, outputFile s = Some h -> h = harObject s).

(** Invariant of the runs in which [chromedp.Run] fails with [err]: main
    never reaches the loop, nothing is written, and the log output is the
    navigation warning once main has logged it. *)
Definition navFailedInv (err : string) (s : State) : Prop :=
  outputFile s = None /\
  (pc s = Navigating \/ pc s = Returning \/ pc s = Returned) /\
  (pc s = Navigating -> slog s = []) /\
  (pc s = Returning \/ pc s = Returned ->
   slog s = [Warn ("error navigating: " +:+ err)]).

(** Invariant of the runs in which navigation succeeds and the listener
    never closes [harCh]. *)
Definition noCloseInv (s : State) : Prop :=
  harCh s = ChanOpen /\
  (pc s = Navigating \/ pc s = Draining) /\
  panicked s = None /\
  slog s = [] /\
  outputFile s = None /\
  Forall (fun ev => ~ isInteractiveTime ev) (events s).

(** The stretches a live main has before it, counting the last action of
    the process (the exit or a panic) once; the stretch that leaves the
    loop is paid by the event that closes the channel, which starts no
    goroutine. *)
Definition mainWeight (s : State) : nat :=
  match panicked s with
  | Some _ => 0
  | None =>
      match pc s, harCh s with
      | Navigating, ChanOpen => 3
      | Navigating, ChanClosed => 4
      | Draining, ChanOpen => 2
      | Draining, ChanClosed => 3
      | Written, _ => 2
      | Returning, _ => 1
      | Returned, _ => 0
      end
  end.

(** What a run can still do: two units per undelivered event (its
    dispatch and the send of the goroutine it may start), one per pending
    send, and the stretches of main. *)
Definition runMeasure (s : State) : nat :=
  2 * length (events s)
  + sum_list (length <$> goroutines s)
  + mainWeight s.

(** Sample data of the examples. *)
Definition okEnv : Env :=
  {| navigateErr := None; marshalErr := None; writeFileErr := None |}.

Definition failedNavigation : Env :=
  {| navigateErr := Some "context deadline exceeded";
     marshalErr := None; writeFileErr := None |}.

Definition sampleTime : time.Time :=
  {| time.Year := 2024; time.Month := 3; time.Day := 7;
     time.Hour := 9; time.Minute := 5; time.Second := 1;
     time.Nanosecond := 120000000; time.ZoneOffset := -19800 |}.

Definition sampleHeaders : gmap string GoValue :=
  <["Set-Cookie" := GStrings ["a=1"; "b=2"]]>
    (<["Accept" := GString "*/*"]> (<["Content-Length" := GInt 42]> ∅)).

Definition sampleRequest (id : string) (type : network.ResourceType)
  : network.EventRequestWillBeSent :=
  {| network.RequestID := id;
     network.EvRequest := {| network.URL := "https://google.com/";
                             network.Method := "GET";
                             network.Headers := sampleHeaders |};
     network.WallTime := sampleTime;
     network.Type_ := type |}.

Definition sampleResponse (id : string) (type : network.ResourceType)
  : network.EventResponseReceived :=
  {| network.RespRequestID := id; network.RespType := type |}.

Definition interactiveTime : Event :=
  LifecycleEvent {| page.Name := "InteractiveTime" |}.

(** One Document request, one image request, the response to each, then
    the lifecycle event that ends the capture. *)
Definition pageLoadWithResponses : list Event :=
  [ RequestWillBeSent (sampleRequest "1" "Document");
    RequestWillBeSent (sampleRequest "2" "Image");
    ResponseReceived (sampleResponse "1" "Document");
    ResponseReceived (sampleResponse "2" "Image");
    interactiveTime ].

(** The number of pairs one header value contributes. *)
Definition pairCount (v : GoValue) : nat :=
  match v with
  | GStrings arr => length arr
  | _ => 1
  end.

(** The one line main logs, decided by the results of the outside calls
    in the order main asks for them. *)
Definition lastLine (env : Env) : LogLine :=
  match navigateErr env, marshalErr env, writeFileErr env with
  | Some err, _, _ => Warn ("error navigating: " +:+ err)
  | None, Some err, _ => Warn ("error marshaling HAR object: " +:+ err)
  | None, None, Some err => Warn ("error writing HAR file: " +:+ err)
  | None, None, None => Info "HAR file generated successfully."
  end.

Definition allSucceed (env : Env) : bool :=
  match navigateErr env, marshalErr env, writeFileErr env with
  | None, None, None => true
  | _, _, _ => false
  end.

(** How the log output, the file, the channel and a panic relate to where
    main stands. *)
Definition outcomeInv (env : Env) (s : State) : Prop :=
  match pc s with
  | Navigating => slog s = [] /\ outputFile s = None
  | Draining => slog s = [] /\ outputFile s = None /\ navigateErr env = None
  | Written =>
      slog s = [] /\ outputFile s = Some (harObject s) /\
      allSucceed env = true /\ harCh s = ChanClosed
  | Returning | Returned =>
      slog s = [lastLine env] /\
      outputFile s = (if allSucceed env then Some (harObject s) else None) /\
      (navigateErr env = None -> harCh s = ChanClosed)
  end /\
  (pc s = Returned -> panicked s = None) /\
  (panicked s <> None -> harCh s = ChanClosed).

Definition marshalFails : Env :=
  {| navigateErr := None;
     marshalErr := Some "json: unsupported value";
     writeFileErr := None |}.

Definition writeFails : Env :=
  {| navigateErr := None; marshalErr := None;
     writeFileErr := Some "open output.har: permission denied" |}.

(** A page load of two requests, and a schedule that receives both records
    before the lifecycle event closes the channel. *)
Definition twoRequests : list Event :=
  [ RequestWillBeSent {| network.RequestID := "1";
                         network.EvRequest := {| network.URL := "https://google.com/";
                                                 network.Method := "GET";
                                                 network.Headers := ∅ |};
                         network.WallTime := {| time.Year := 2024; time.Month := 3;
                                                time.Day := 7; time.Hour := 9;
                                                time.Minute := 5; time.Second := 1;
                                                time.Nanosecond := 0;
                                                time.ZoneOffset := 0 |};
                         network.Type_ := "Document" |};
    RequestWillBeSent {| network.RequestID := "2";
                         network.EvRequest := {| network.URL := "https://google.com/a.js";
                                                 network.Method := "GET";
                                                 network.Headers := ∅ |};
                         network.WallTime := {| time.Year := 2024; time.Month := 3;
                                                time.Day := 7; time.Hour := 9;
                                                time.Minute := 5; time.Second := 2;
                                                time.Nanosecond := 500000000;
                                                time.ZoneOffset := 0 |};
                         network.Type_ := "Script" |};
    LifecycleEvent {| page.Name := "InteractiveTime" |} ].

Definition fullCapture : list Action :=
  [NavigateReturns; Dispatch []; Dispatch []; Send 1; Send 0; Dispatch []; RangeEnds].

(** The lifecycle event first, then a request whose goroutine finds the
    channel closed. *)
Definition lateRequest : list Event :=
  [ LifecycleEvent {| page.Name := "InteractiveTime" |};
    RequestWillBeSent {| network.RequestID := "2";
                         network.EvRequest := {| network.URL := "https://google.com/a.js";
                                                 network.Method := "GET";
                                                 network.Headers := ∅ |};
                         network.WallTime := {| time.Year := 2024; time.Month := 3;
                                                time.Day := 7; time.Hour := 9;
                                                time.Minute := 5; time.Second := 2;
                                                time.Nanosecond := 0;
                                                time.ZoneOffset := 0 |};
                         network.Type_ := "Script" |} ].

Definition lateSend : list Action :=
  [NavigateReturns; Dispatch []; Dispatch []; Send 0].

(** The same events; main leaves the loop and writes the file, or writes
    the file and logs the success line, before the goroutine of the late
    request sends. *)
Definition panicAfterWrite : list Action :=
  [NavigateReturns; Dispatch []; Dispatch []; MainStep; Send 0].

Definition panicAfterLog : list Action :=
  [NavigateReturns; Dispatch []; Dispatch []; MainStep; MainStep; Send 0].

(** The states those runs end in. *)
Definition panicAfterWriteEnd : State :=
  Eval vm_compute in default (init []) (exec okEnv panicAfterWrite (init lateRequest)).

Definition panicAfterLogEnd : State :=
  Eval vm_compute in default (init []) (exec okEnv panicAfterLog (init lateRequest)).

Definition fullCaptureEnd : State :=
  Eval vm_compute in default (init []) (exec okEnv fullCapture (init twoRequests)).

Definition marshalFailsEnd : State :=
  Eval vm_compute in default (init []) (exec marshalFails fullCapture (init twoRequests)).

Definition writeFailsEnd : State :=
  Eval vm_compute in default (init []) (exec writeFails fullCapture (init twoRequests)).

Definition lateSendEnd : State :=
  Eval vm_compute in default (init []) (exec okEnv lateSend (init lateRequest)).

(** The creator, browser and version of the literal of lines 65-80 stay in
    the log. *)
Definition metaInv (s : State) : Prop :=
  har.Version (harObject s) = har.Version emptyLog /\
  har.LogCreator (harObject s) = har.LogCreator emptyLog /\
  har.Browser (harObject s) = har.Browser emptyLog.

(** Nothing is received while main is inside [chromedp.Run]. *)
Definition navigatingInv (s : State) : Prop :=
  pc s = Navigating -> accepted s = [] /\ harObject s = emptyLog.

(** The lifecycle event arrives while main is still inside
    [chromedp.Run] and one goroutine waits to send. *)
Definition earlyClose : list Action := [Dispatch []; Dispatch []].

Definition earlyCloseEvents : list Event :=
  [ RequestWillBeSent {| network.RequestID := "1";
                         network.EvRequest := {| network.URL := "https://google.com/";
                                                 network.Method := "GET";
                                                 network.Headers := ∅ |};
                         network.WallTime := {| time.Year := 2024; time.Month := 3;
                                                time.Day := 7; time.Hour := 9;
                                                time.Minute := 5; time.Second := 1;
                                                time.Nanosecond := 0;
                                                time.ZoneOffset := 0 |};
                         network.Type_ := "Document" |};
    LifecycleEvent {| page.Name := "InteractiveTime" |} ].

Definition earlyCloseMid : State :=
  Eval vm_compute in default (init []) (exec okEnv earlyClose (init earlyCloseEvents)).

Definition earlyCloseEnd : State :=
  Eval vm_compute in
    default (init []) (exec okEnv [NavigateReturns; RangeEnds] earlyCloseMid).

(** Response-received events of a driver sequence, by resource type. *)
Definition isDocumentResponse (ev : Event) : bool :=
  match ev with
  | ResponseReceived r =>
      bool_decide (network.RespType r = network.ResourceTypeDocument)
  | _ => false
  end.

Definition isOtherResponse (ev : Event) : bool :=
  match ev with
  | ResponseReceived r =>
      negb (bool_decide (network.RespType r = network.ResourceTypeDocument))
  | _ => false
  end.

Definition documentResponses (evs : list Event) : nat :=
  length (List.filter isDocumentResponse evs).

Definition otherResponses (evs : list Event) : nat :=
  length (List.filter isOtherResponse evs).

(** Pages and entries the goroutines have still to send. *)
Definition pendingPages (gs : list (list HarData)) : nat :=
  sum_list_with (fun g => length (pagesOf g)) gs.

Definition pendingEntries (gs : list (list HarData)) : nat :=
  sum_list_with (fun g => length (entriesOf g)) gs.

(** Every Document request or response is an event still to dispatch, a
    page a goroutine has still to send, or a page received; likewise for
    the other requests and responses and the entries. *)
Definition countInv (evs : list Event) (s : State) : Prop :=
  pendingPages (goroutines s) + length (pagesOf (accepted s))
    + (documentRequests (events s) + documentResponses (events s))
  = documentRequests evs + documentResponses evs
  /\
  pendingEntries (goroutines s) + length (entriesOf (accepted s))
    + (otherRequests (events s) + otherResponses (events s))
  = otherRequests evs + otherResponses evs.

(** A value that [processRequest] or [processResponse] sends for one of
    the events of a sequence. *)
Definition fromEvents (evs : list Event) (d : HarData) : Prop :=
  (exists picks ev, RequestWillBeSent ev ∈ evs /\ d ∈ processRequest picks ev)
  \/ (exists ev, ResponseReceived ev ∈ evs /\ d ∈ processResponse ev).

Definition provenanceInv (evs : list Event) (s : State) : Prop :=
  (forall ev, ev ∈ events s -> ev ∈ evs) /\
  (forall g d, g ∈ goroutines s -> d ∈ g -> fromEvents evs d) /\
  (forall d, d ∈ accepted s -> fromEvents evs d).

(** The schedule that serves the events one at a time: each event is
    dispatched and, if it started a goroutine, that goroutine (the [k]-th
    so far) sends at once. *)
Fixpoint serialSchedule (evs : list Event) (k : nat) : list Action :=
  match evs with
  | [] => []
  | RequestWillBeSent _ :: rest => Dispatch [] :: Send k :: serialSchedule rest (S k)
  | ResponseReceived _ :: rest => Dispatch [] :: Send k :: serialSchedule rest (S k)
  | _ :: rest => Dispatch [] :: serialSchedule rest k
  end.

(** Navigation returns first, the events are served one at a time, the
    lifecycle event arrives last and main leaves the loop. *)
Definition captureSchedule (evs : list Event) : list Action :=
  NavigateReturns :: serialSchedule evs 0 ++ [Dispatch []; RangeEnds].

Definition firstPage : har.Page :=
  {| har.ID := "page_1";
     har.PageStartedDateTime := "2024-03-07T09:05:01Z";
     har.Title := "https://google.com/" |}.

Definition firstEntry : har.Entry :=
  {| har.Pageref := "page_2";
     har.StartedDateTime := "2024-03-07T09:05:02.5Z";
     har.EntryRequest := Some {| har.Method := "GET";
                                 har.URL := "https://google.com/a.js";
                                 har.Headers := [] |} |}.

(** Lifecycle events named InteractiveTime in a driver sequence. *)
Definition isInteractiveTimeb (ev : Event) : bool :=
  match ev with
  | LifecycleEvent l => bool_decide (page.Name l = "InteractiveTime")
  | _ => false
  end.

Definition interactiveTimes (evs : list Event) : nat :=
  length (List.filter isInteractiveTimeb evs).

(** Calls of [close(harCh)] a state shows: none while the channel is
    open, one once it is closed, two after the panic of a second close. *)
Definition closes (s : State) : nat :=
  match harCh s, panicked s with
  | ChanOpen, _ => 0
  | ChanClosed, Some CloseOfClosedChannel => 2
  | ChanClosed, _ => 1
  end.

Definition closeInv (evs : list Event) (s : State) : Prop :=
  interactiveTimes (events s) + closes s = interactiveTimes evs /\
  (panicked s = Some CloseOfClosedChannel -> harCh s = ChanClosed).

Definition doubleCloseEnd : State :=
  Eval vm_compute in
    default (init [])
      (exec okEnv [Dispatch []; Dispatch []]
         (init [LifecycleEvent {| page.Name := "InteractiveTime" |};
                LifecycleEvent {| page.Name := "InteractiveTime" |};
                LifecycleEvent {| page.Name := "InteractiveTime" |}])).

(** The loop waits on the open channel, no event is left and no goroutine
    has a value left to send. *)
Definition idleLoop (s : State) : Prop :=
  pc s = Draining /\ harCh s = ChanOpen /\ events s = [] /\
  Forall (fun g => g = []) (goroutines s).

Definition idleLoopState : State :=
  Eval vm_compute in
    default (init [])
      (exec okEnv [NavigateReturns; Dispatch []]
         (init [LifecycleEvent {| page.Name := "load" |}])).

(** * Properties *)

(** ** Map iteration orders *)

Lemma rangeOrder_perm {A} (picks : list nat) (l : list A) :
  rangeOrder picks l ≡ₚ l.
Proof.
  revert l. induction picks as [|i picks IH]; intros l; simpl; [done|].
  destruct (l !! (i mod length l)) as [x|] eqn:Hx; [|done].
  rewrite IH. symmetry. by apply delete_Permutation.
Qed.

(** Every order of the keys is the order of some picks. *)
Lemma rangeOrder_complete {A} (l l' : list A) :
  l' ≡ₚ l -> exists picks, rangeOrder picks l = l'.
Proof.
  revert l. induction l' as [|x l' IH]; intros l Hp.
  - apply Permutation_nil_l in Hp. subst. by exists [].
  - assert (x ∈ l) as Hin by (rewrite <- Hp; left).
    apply list_elem_of_lookup in Hin as [k Hk].
    pose proof (lookup_lt_Some _ _ _ Hk) as Hlt.
    pose proof (delete_Permutation _ _ _ Hk) as Hd.
    rewrite Hd in Hp. apply Permutation_cons_inv in Hp.
    destruct (IH _ Hp) as [picks Hpicks].
    exists (k :: picks). simpl.
    rewrite (Nat.mod_small k (length l)) by done.
    by rewrite Hk, Hpicks.
Qed.

Lemma mapRange_perm (picks : list nat) (m : gmap string GoValue) :
  mapRange picks m ≡ₚ map_to_list m.
Proof. apply rangeOrder_perm. Qed.

(** Every order of the headers is the order of some loop. *)
Lemma mapRange_complete (m : gmap string GoValue) (order : list (string * GoValue)) :
  order ≡ₚ map_to_list m -> exists picks, mapRange picks m = order.
Proof. apply rangeOrder_complete. Qed.

Lemma mapRange_lookup (picks : list nat) (m : gmap string GoValue) name v :
  (name, v) ∈ mapRange picks m <-> m !! name = Some v.
Proof. rewrite mapRange_perm. apply elem_of_map_to_list. Qed.

Lemma mapRange_NoDup (picks : list nat) (m : gmap string GoValue) :
  NoDup (mapRange picks m).*1.
Proof. rewrite mapRange_perm. apply NoDup_fst_map_to_list. Qed.

(** ** The loops of [headersToHAR] *)

Lemma inner_loop name (arr : list string) (harHeaders : list har.NameValuePair) :
  foldl (fun harHeaders value =>
           harHeaders ++ [ {| har.Name := name; har.Value := value |} ])
        harHeaders arr
  = harHeaders ++ ((fun value => {| har.Name := name; har.Value := value |}) <$> arr).
Proof.
  revert harHeaders. induction arr as [|a arr IH]; intros acc; simpl.
  - by rewrite app_nil_r.
  - rewrite IH. by rewrite <- app_assoc.
Qed.

Lemma headersToHAR_pairsOf (picks : list nat) (headers : gmap string GoValue) :
  headersToHAR picks headers = mapRange picks headers ≫= pairsOf.
Proof.
  unfold headersToHAR.
  generalize (mapRange picks headers) as l.
  assert (forall l acc,
    foldl (fun harHeaders '(name, values) =>
             match values with
             | GStrings arr =>
                 foldl (fun harHeaders value =>
                          harHeaders ++ [ {| har.Name := name; har.Value := value |} ])
                       harHeaders arr
             | _ => harHeaders ++ [ {| har.Name := name; har.Value := Sprint values |} ]
             end) acc l
    = acc ++ (l ≫= pairsOf)) as Hgen.
  { induction l as [|[name v] l IH]; intros acc; simpl.
    - by rewrite app_nil_r.
    - rewrite IH. unfold pairsOf at 2. simpl.
      destruct v; simpl; rewrite ?inner_loop, <- ?app_assoc; done. }
  intros l. by rewrite Hgen.
Qed.

(** ** Pairs by name *)

Lemma valuesNamed_app name (a b : list har.NameValuePair) :
  valuesNamed name (a ++ b) = valuesNamed name a ++ valuesNamed name b.
Proof. unfold valuesNamed. by rewrite filter_app, fmap_app. Qed.

Lemma pairsOf_name (h : string * GoValue) p : p ∈ pairsOf h -> har.Name p = h.1.
Proof.
  unfold pairsOf. destruct h as [n v]. simpl.
  destruct v; simpl; intros Hp;
    try (apply list_elem_of_singleton in Hp; by subst).
  apply list_elem_of_fmap in Hp as (value & -> & _). done.
Qed.

Lemma valuesNamed_pairsOf_ne name (h : string * GoValue) :
  h.1 <> name -> valuesNamed name (pairsOf h) = [].
Proof.
  intros Hne. unfold valuesNamed.
  assert (filter (fun p => har.Name p = name) (pairsOf h) = []) as ->; [|done].
  pose proof (pairsOf_name h) as Hnames.
  induction (pairsOf h) as [|p l IH]; [done|].
  rewrite filter_cons_False.
  - apply IH. intros q Hq. apply Hnames. by right.
  - rewrite (Hnames p) by left. done.
Qed.

Lemma valuesNamed_pairsOf_strings name (arr : list string) :
  valuesNamed name (pairsOf (name, GStrings arr)) = arr.
Proof.
  unfold valuesNamed, pairsOf. simpl.
  induction arr as [|a arr IH]; [done|].
  rewrite fmap_cons, filter_cons_True by done.
  rewrite fmap_cons. simpl. by rewrite IH.
Qed.

Lemma valuesNamed_pairsOf_scalar name (v : GoValue) :
  (forall arr, v <> GStrings arr) ->
  valuesNamed name (pairsOf (name, v)) = [Sprint v].
Proof.
  intros Hv. unfold valuesNamed, pairsOf. simpl.
  destruct v; try (rewrite filter_cons_True by done; done).
  by destruct (Hv l).
Qed.

Lemma valuesNamed_absent name (l : list (string * GoValue)) :
  name ∉ l.*1 -> valuesNamed name (l ≫= pairsOf) = [].
Proof.
  induction l as [|h l IH]; intros Hn; [done|].
  rewrite bind_cons, valuesNamed_app.
  rewrite fmap_cons, not_elem_of_cons in Hn. destruct Hn as [Hne Hn].
  rewrite valuesNamed_pairsOf_ne by done. by rewrite IH.
Qed.

(** With pairwise distinct names, the pairs of a name are those of its
    one header. *)
Lemma valuesNamed_present name v (l : list (string * GoValue)) :
  NoDup l.*1 -> (name, v) ∈ l ->
  valuesNamed name (l ≫= pairsOf) = valuesNamed name (pairsOf (name, v)).
Proof.
  induction l as [|h l IH]; intros Hnd Hin.
  - by apply elem_of_nil in Hin.
  - rewrite fmap_cons in Hnd. apply NoDup_cons in Hnd as [Hh Hnd].
    rewrite bind_cons, valuesNamed_app.
    apply elem_of_cons in Hin as [<-|Hin].
    + simpl in Hh. rewrite (valuesNamed_absent name l) by done.
      by rewrite app_nil_r.
    + assert (h.1 <> name) as Hne.
      { intros <-. apply Hh. apply list_elem_of_fmap. by exists (h.1, v). }
      rewrite valuesNamed_pairsOf_ne by done. simpl. by apply IH.
Qed.

Lemma headersToHAR_names (picks : list nat) (headers : gmap string GoValue) p :
  p ∈ headersToHAR picks headers ->
  exists v, headers !! har.Name p = Some v /\ p ∈ pairsOf (har.Name p, v).
Proof.
  rewrite headersToHAR_pairsOf. intros Hp.
  apply list_elem_of_bind in Hp as ([n v] & Hp & Hh).
  pose proof (pairsOf_name _ _ Hp) as Hn. simpl in Hn. subst n.
  exists v. split; [|done]. by apply (mapRange_lookup picks).
Qed.

(** ** The classifier and the normalizer *)



(** C5 (as amended). For every header mapping and every iteration order of
    it, the output of [headersToHAR] holds, for a header whose value is a
    list of strings ([[]string]), exactly one pair per element, in the
    order of the elements; for a header with any other value, a list of
    another element type included, exactly one pair whose value is the
    text [fmt.Sprint] gives for it; and no pair for a name the mapping does
    not have.  The function is total: no input raises an error. *)
Theorem headersToHAR_one_pair_per_value (picks : list nat)
    (headers : gmap string GoValue) (name : string) :
  (headers !! name = None ->
   valuesNamed name (headersToHAR picks headers) = [])
  /\
  (forall arr, headers !! name = Some (GStrings arr) ->
   valuesNamed name (headersToHAR picks headers) = arr)
  /\
  (forall v, headers !! name = Some v -> (forall arr, v <> GStrings arr) ->
   valuesNamed name (headersToHAR picks headers) = [Sprint v]).
Proof.
  rewrite headersToHAR_pairsOf. split; [|split].
  - intros Hnone. apply valuesNamed_absent.
    intros Hin. apply list_elem_of_fmap in Hin as ([n v] & -> & Hin).
    apply mapRange_lookup in Hin. simpl in Hnone. congruence.
  - intros arr Hsome.
    rewrite (valuesNamed_present name (GStrings arr)).
    + apply valuesNamed_pairsOf_strings.
    + apply mapRange_NoDup.
    + by apply mapRange_lookup.
  - intros v Hsome Hv.
    rewrite (valuesNamed_present name v).
    + by apply valuesNamed_pairsOf_scalar.
    + apply mapRange_NoDup.
    + by apply mapRange_lookup.
Qed.

Lemma headersToHAR_one_pair_per_value_witness :
  valuesNamed "Cookie" (headersToHAR [2; 0] sampleHeaders) = []
  /\ valuesNamed "Set-Cookie" (headersToHAR [2; 0] sampleHeaders) = ["a=1"; "b=2"]
  /\ valuesNamed "Content-Length" (headersToHAR [2; 0] sampleHeaders) = ["42"].
Proof.
  destruct (headersToHAR_one_pair_per_value [2; 0] sampleHeaders "Cookie")
    as (Habsent & _ & _).
  destruct (headersToHAR_one_pair_per_value [2; 0] sampleHeaders "Set-Cookie")
    as (_ & Hstrings & _).
  destruct (headersToHAR_one_pair_per_value [2; 0] sampleHeaders "Content-Length")
    as (_ & _ & Hscalar).
  split; [|split].
  - apply Habsent. vm_compute. reflexivity.
  - apply Hstrings. vm_compute. reflexivity.
  - apply (Hscalar (GInt 42)).
    + vm_compute. reflexivity.
    + intros arr. discriminate.
Defined.

(** A list whose dynamic type is not [[]string] fails the type assertion
    of line 145 and is printed as one value. *)
Lemma flattensEveryList_fails :
  ~ flattensEveryList []
      {[ "Set-Cookie" := GSlice [GString "a=1"; GString "b=2"] ]} "Set-Cookie".
Proof.
  intros Hclaim.
  specialize (Hclaim (GSlice [GString "a=1"; GString "b=2"])
                     [GString "a=1"; GString "b=2"]).
  assert (valuesNamed "Set-Cookie"
            (headersToHAR []
               {[ "Set-Cookie" := GSlice [GString "a=1"; GString "b=2"] ]})
          = ["[a=1 b=2]"]) as Hout by (vm_compute; reflexivity).
  rewrite Hout in Hclaim.
  discriminate Hclaim; vm_compute; reflexivity.
Qed.

(** C10 (as amended). [headersToHAR] is total; a header whose value is a
    list of strings ([[]string]) with zero elements leaves no pair with
    that name in the output; the empty mapping gives the empty output; and
    a header whose value is an empty list of any other element type leaves
    exactly one pair with that name, the pair of the name and the text
    [[]]. *)
Theorem headersToHAR_empty_strings_dropped (picks : list nat)
    (headers : gmap string GoValue) (name : string) :
  (headers !! name = Some (GStrings []) ->
   forall p, p ∈ headersToHAR picks headers -> har.Name p <> name)
  /\ headersToHAR picks ∅ = []
  /\ (forall v, headers !! name = Some v ->
       listElements v = Some [] -> (forall arr, v <> GStrings arr) ->
       filter (fun p => har.Name p = name) (headersToHAR picks headers)
       = [ {| har.Name := name; har.Value := "[]" |} ]).
Proof.
  split; [|split].
  - intros Hempty p Hp Hname.
    apply headersToHAR_names in Hp as (v & Hv & Hin).
    rewrite Hname, Hempty in Hv. injection Hv as <-.
    unfold pairsOf in Hin. simpl in Hin. by apply elem_of_nil in Hin.
  - rewrite headersToHAR_pairsOf.
    pose proof (mapRange_perm picks ∅) as Hperm.
    rewrite map_to_list_empty in Hperm.
    apply Permutation_nil_r in Hperm. by rewrite Hperm.
  - intros v Hv Hlist Hother.
    assert (v = GSlice []) as ->.
    { destruct v as [| | | |arr|l]; simpl in Hlist; try done.
      - by destruct (Hother arr).
      - by simplify_eq. }
    assert (valuesNamed name (headersToHAR picks headers) = ["[]"]) as Hvalues.
    { rewrite headersToHAR_pairsOf.
      rewrite (valuesNamed_present name (GSlice [])).
      - by rewrite valuesNamed_pairsOf_scalar.
      - apply mapRange_NoDup.
      - by apply mapRange_lookup. }
    unfold valuesNamed in Hvalues.
    pose proof (list_elem_of_filter (fun p => har.Name p = name)
                  (headersToHAR picks headers)) as Hfilter.
    destruct (filter (fun p => har.Name p = name) (headersToHAR picks headers))
      as [|p [|q l]]; try done.
    destruct (proj1 (Hfilter p) ltac:(left)) as [Hname _].
    destruct p as [n value]. simpl in *. by simplify_eq.
Qed.

Lemma headersToHAR_empty_strings_dropped_witness :
  (forall p,
     p ∈ headersToHAR [1] (<["Via" := GStrings []]> sampleHeaders) ->
     har.Name p <> "Via")
  /\ headersToHAR [1] ∅ = []
  /\ filter (fun p => har.Name p = "Via")
       (headersToHAR [1] (<["Via" := GSlice []]> sampleHeaders))
     = [ {| har.Name := "Via"; har.Value := "[]" |} ].
Proof.
  destruct (headersToHAR_empty_strings_dropped [1]
              (<["Via" := GStrings []]> sampleHeaders) "Via") as (Hdrop & _ & _).
  destruct (headersToHAR_empty_strings_dropped [1] ∅ "Via") as (_ & Hnil & _).
  destruct (headersToHAR_empty_strings_dropped [1]
              (<["Via" := GSlice []]> sampleHeaders) "Via") as (_ & _ & Hone).
  split; [|split].
  - apply Hdrop. vm_compute. reflexivity.
  - exact Hnil.
  - apply (Hone (GSlice [])).
    + vm_compute. reflexivity.
    + reflexivity.
    + intros arr. discriminate.
Defined.

(** An empty list whose dynamic type is not [[]string] is printed as
    [[]]: its header stays in the output. *)
Lemma dropsEveryEmptyList_fails :
  ~ dropsEveryEmptyList [] {[ "Via" := GSlice [] ]} "Via".
Proof.
  intros Hclaim.
  apply (Hclaim (GSlice []) ltac:(vm_compute; reflexivity) eq_refl
                {| har.Name := "Via"; har.Value := "[]" |}).
  - vm_compute. left.
  - reflexivity.
Qed.

(** ** Runs of [main] *)

Lemma running_inv (s : State) :
  running s = true -> panicked s = None /\ pc s <> Returned.
Proof. unfold running. by repeat case_match. Qed.

Lemma alive_inv (s : State) :
  alive s = true -> panicked s = None /\ pc s <> Returned.
Proof. unfold alive. by repeat case_match. Qed.

Lemma running_alive (s : State) : running s = true -> alive s = true.
Proof. unfold running, alive. by repeat case_match. Qed.

(** Main running alone reaches the states of [pastNavigate] and
    [pastLoop]. *)
Lemma mainRuns_navigating (env : Env) (s : State) :
  pc s = Navigating -> mainRuns env s = Some (pastNavigate env s).
Proof.
  intros Hpc. unfold mainRuns, mainStep, pastNavigate. rewrite Hpc.
  destruct (navigateErr env); reflexivity.
Qed.

Lemma mainRuns_draining (env : Env) (s : State) :
  pc s = Draining ->
  mainRuns env s = match harCh s with
                   | ChanClosed => Some (pastLoop env s)
                   | ChanOpen => None
                   end.
Proof.
  intros Hpc. unfold mainRuns, mainStep, pastLoop. rewrite Hpc.
  destruct (harCh s); [done|].
  destruct (marshalErr env), (writeFileErr env); reflexivity.
Qed.

Lemma exec_step (env : Env) (a : Action) (sched : list Action) (s : State) :
  exec env (a :: sched) s =
  match step env a s with
  | Some s' => exec env sched s'
  | None => None
  end.
Proof. reflexivity. Qed.

Lemma step_MainStep (env : Env) (s : State) :
  alive s = true -> step env MainStep s = mainStep env s.
Proof. unfold step. by intros ->. Qed.

Lemma mainStep_panicked (env : Env) (s s' : State) :
  mainStep env s = Some s' -> panicked s' = panicked s.
Proof. unfold mainStep. intros H. repeat case_match; by simplify_eq. Qed.

(** A stretch of main touches neither the channel, the goroutines, the
    pending events nor the log of the loop. *)
Lemma mainStep_frame (env : Env) (s s' : State) :
  mainStep env s = Some s' ->
  harCh s' = harCh s /\ goroutines s' = goroutines s /\ events s' = events s /\
  accepted s' = accepted s /\ harObject s' = harObject s /\
  panicked s' = panicked s.
Proof. unfold mainStep. intros H. repeat case_match; by simplify_eq. Qed.

Lemma finish_steps (env : Env) (fuel : nat) (s : State) :
  panicked s = None ->
  exists n, n <= fuel /\
    exec env (replicate n MainStep) s = Some (finish fuel env s).
Proof.
  revert s. induction fuel as [|fuel IH]; intros s Hp; simpl finish.
  - exists 0. split; [lia|done].
  - assert (forall s1, mainStep env s = Some s1 -> alive s = true ->
              exists n, n <= S fuel /\
                exec env (replicate n MainStep) s = Some (finish fuel env s1))
      as Hgo.
    { intros s1 Hs1 Halive.
      destruct (IH s1) as (n & Hn & Hexec).
      { by rewrite (mainStep_panicked _ _ _ Hs1). }
      exists (S n). split; [lia|].
      change (replicate (S n) MainStep) with (MainStep :: replicate n MainStep).
      by rewrite exec_step, step_MainStep, Hs1. }
    destruct (pc s) eqn:Hpc; try (exists 0; split; [lia|done]).
    + destruct (mainStep env s) as [s1|] eqn:Hs1; [|exists 0; split; [lia|done]].
      apply Hgo; [done|]. unfold alive. by rewrite Hp, Hpc.
    + destruct (mainStep env s) as [s1|] eqn:Hs1; [|exists 0; split; [lia|done]].
      apply Hgo; [done|]. unfold alive. by rewrite Hp, Hpc.
Qed.

(** Main running alone is a run of [MainStep]s: the two actions
    [NavigateReturns] and [RangeEnds] add no behaviour of their own. *)
Lemma mainRuns_steps (env : Env) (s s' : State) :
  alive s = true -> mainRuns env s = Some s' ->
  exists n, 1 <= n <= 3 /\ exec env (replicate n MainStep) s = Some s'.
Proof.
  unfold mainRuns. intros Halive Hruns.
  destruct (mainStep env s) as [s1|] eqn:Hs1; [|done]. injection Hruns as <-.
  destruct (finish_steps env 2 s1) as (n & Hn & Hexec).
  { rewrite (mainStep_panicked _ _ _ Hs1). by apply alive_inv. }
  exists (S n). split; [lia|].
  change (replicate (S n) MainStep) with (MainStep :: replicate n MainStep).
  by rewrite exec_step, step_MainStep, Hs1.
Qed.

(** The steps, with the runs of main spelled out. *)
Lemma step_eq (env : Env) (a : Action) (s : State) :
  step env a s =
  if alive s then
    match a with
    | Dispatch picks =>
        match events s with
        | [] => None
        | ev :: rest => Some (listener picks ev (setEvents rest s))
        end
    | MainStep => mainStep env s
    | NavigateReturns =>
        match pc s with
        | Navigating => Some (pastNavigate env s)
        | _ => None
        end
    | Send i =>
        match goroutines s !! i with
        | Some (data :: rest) =>
            match harCh s, pc s with
            | ChanClosed, _ => Some (panic SendOnClosedChannel s)
            | ChanOpen, Draining => Some (receive i data rest s)
            | ChanOpen, _ => None
            end
        | _ => None
        end
    | RangeEnds =>
        match pc s, harCh s with
        | Draining, ChanClosed => Some (pastLoop env s)
        | _, _ => None
        end
    end
  else None.
Proof.
  unfold step. destruct (alive s); [|done].
  destruct a as [picks| |i| |]; try done.
  - destruct (pc s) eqn:Hpc; try done. by apply mainRuns_navigating.
  - destruct (pc s) eqn:Hpc; try done. rewrite mainRuns_draining by done.
    by destruct (harCh s).
Qed.

(** Case analysis of one step: every way [step env a s] can be [Some s']. *)
(** [NavigateReturns] and [RangeEnds] add no run of their own: each is
    one to three [MainStep]s with nothing scheduled in between. *)
Lemma macro_actions_are_main_steps (env : Env) (a : Action) (s s' : State) :
  a = NavigateReturns \/ a = RangeEnds ->
  step env a s = Some s' ->
  exists n, 1 <= n <= 3 /\ exec env (replicate n MainStep) s = Some s'.
Proof.
  intros Ha Hstep. unfold step in Hstep.
  destruct (alive s) eqn:Halive; [|done].
  destruct Ha as [-> | ->]; destruct (pc s); try done;
    by apply mainRuns_steps.
Qed.

Ltac step_cases H :=
  rewrite step_eq in H; unfold mainStep in H;
  repeat (case_match; try discriminate);
  try (injection H as <-);
  unfold pastNavigate, pastLoop, listener, closeChan in *;
  repeat (case_match; try discriminate);
  simplify_eq; simpl in *.


(** An invariant of the steps that holds at the start holds along the
    whole run. *)
Lemma exec_invariant (env : Env) (P : State -> Prop) :
  (forall a s s', P s -> step env a s = Some s' -> P s') ->
  forall sched s s', P s -> exec env sched s = Some s' -> P s'.
Proof.
  intros Hstep. induction sched as [|a sched IH]; intros s s' HP Hexec; simpl in *.
  - by simplify_eq.
  - destruct (step env a s) as [s1|] eqn:Hs; [|done]. eauto.
Qed.

Lemma exec_app (env : Env) (sched1 sched2 : list Action) (s : State) :
  exec env (sched1 ++ sched2) s = exec env sched1 s ≫= exec env sched2.
Proof.
  revert s. induction sched1 as [|a sched1 IH]; intros s; simpl; [done|].
  destruct (step env a s); [apply IH | done].
Qed.

(** ** The drain loop *)

Lemma pagesOf_app (ds1 ds2 : list HarData) :
  pagesOf (ds1 ++ ds2) = pagesOf ds1 ++ pagesOf ds2.
Proof. apply omap_app. Qed.

Lemma entriesOf_app (ds1 ds2 : list HarData) :
  entriesOf (ds1 ++ ds2) = entriesOf ds1 ++ entriesOf ds2.
Proof. apply omap_app. Qed.

Lemma pagesOf_entriesOf_length (ds : list HarData) :
  length (pagesOf ds) + length (entriesOf ds) = length ds.
Proof.
  induction ds as [|[p|e] ds IH]; simpl; [done| |];
    unfold pagesOf, entriesOf in *; simpl; lia.
Qed.

(** One iteration adds the received value to its own sequence, at the
    end, and leaves the other sequence as it is. *)
Lemma appendData_pages (data : HarData) (log : har.Log) :
  har.Pages (appendData data log) = har.Pages log ++ pagesOf [data].
Proof. destruct data; simpl; by rewrite ?app_nil_r. Qed.

Lemma appendData_entries (data : HarData) (log : har.Log) :
  har.Entries (appendData data log) = har.Entries log ++ entriesOf [data].
Proof. destruct data; simpl; by rewrite ?app_nil_r. Qed.

Lemma logInv_init (evs : list Event) : logInv (init evs).
Proof. repeat split; simpl; intros; done. Qed.

Lemma logInv_step (env : Env) (a : Action) (s s' : State) :
  logInv s -> step env a s = Some s' -> logInv s'.
Proof.
  intros (Hp & He & Hnone & Hfile) Hstep.
  step_cases Hstep; unfold logInv; simpl;
    rewrite ?appendData_pages, ?appendData_entries, ?pagesOf_app, ?entriesOf_app,
      ?Hp, ?He;
    repeat split; try done; intros; simplify_eq; auto;
    try (rewrite Hnone in * by auto; done);
    try (match goal with H : _ \/ _ |- _ => by destruct H end).
Qed.

(** While [harCh] is closed nothing more is received. *)
Lemma closed_channel_accepts_nothing (env : Env) (a : Action) (s s' : State) :
  harCh s = ChanClosed -> step env a s = Some s' ->
  accepted s' = accepted s /\ harObject s' = harObject s /\ harCh s' = ChanClosed.
Proof. intros Hc Hstep. step_cases Hstep; try done; congruence. Qed.

(** A send on the closed channel is a run-time panic, whatever main is
    doing. *)
Lemma send_on_closed_channel_panics (env : Env) (s : State) (i : nat)
    (data : HarData) (rest : list HarData) :
  running s = true -> harCh s = ChanClosed ->
  goroutines s !! i = Some (data :: rest) ->
  step env (Send i) s = Some (panic SendOnClosedChannel s).
Proof. intros Hr Hc Hg. unfold step. by rewrite (running_alive _ Hr), Hg, Hc. Qed.

(** C3. In every run, the page sequence of the log is the subsequence of
    the pages received from [harCh] and its entry sequence the subsequence
    of the entries received, each in receive order; the two lengths add up
    to the number of values received; and the log written to the file is
    that log. *)
Theorem drain_loop_collects (env : Env) (evs : list Event)
    (sched : list Action) (s : State) :
  exec env sched (init evs) = Some s ->
  har.Pages (harObject s) = pagesOf (accepted s) /\
  har.Entries (harObject s) = entriesOf (accepted s) /\
  length (har.Pages (harObject s)) + length (har.Entries (harObject s))
    = length (accepted s) /\
  (forall h, outputFile s = Some h ->
     har.Pages h = pagesOf (accepted s) /\ har.Entries h = entriesOf (accepted s)).
Proof.
  intros Hexec.
  pose proof (exec_invariant env logInv (logInv_step env) sched _ _
                (logInv_init evs) Hexec) as (Hp & He & _ & Hfile).
  split; [done|]. split; [done|]. split.
  - rewrite Hp, He. apply pagesOf_entriesOf_length.
  - intros h Hh. apply Hfile in Hh. by subst.
Qed.

Lemma drain_loop_collects_witness :
  exists s,
    exec okEnv [NavigateReturns; Dispatch []; Dispatch [1]; Send 1; Send 0;
                Dispatch []; RangeEnds]
      (init [RequestWillBeSent (sampleRequest "1" "Document");
             RequestWillBeSent (sampleRequest "2" "Script");
             interactiveTime]) = Some s /\
    length (har.Pages (harObject s)) + length (har.Entries (harObject s)) = 2 /\
    exists h, outputFile s = Some h /\ har.Pages h = pagesOf (accepted s).
Proof.
  eexists. split; [vm_compute; reflexivity|].
  match goal with
  | |- context [accepted ?s] =>
      destruct (drain_loop_collects okEnv
                  [RequestWillBeSent (sampleRequest "1" "Document");
                   RequestWillBeSent (sampleRequest "2" "Script");
                   interactiveTime]
                  [NavigateReturns; Dispatch []; Dispatch [1]; Send 1; Send 0;
                   Dispatch []; RangeEnds] s)
        as (_ & _ & Hlen & Hfile); [vm_compute; reflexivity|]
  end.
  split; [exact Hlen|].
  eexists. split; [reflexivity|].
  apply Hfile. reflexivity.
Defined.

(** ** Responses *)

(** C2. One Document request, one other request and the response to each,
    all received before the lifecycle event: the two placeholder records
    of [processResponse] are appended like any other value, and the file
    holds two pages and two entries for one request of each kind. *)
Theorem response_placeholders_are_appended :
  documentRequests pageLoadWithResponses = 1 /\
  otherRequests pageLoadWithResponses = 1 /\
  exists s h,
    exec okEnv [NavigateReturns; Dispatch []; Send 0; Dispatch []; Send 1;
                Dispatch []; Send 2; Dispatch []; Send 3; Dispatch []; RangeEnds]
      (init pageLoadWithResponses) = Some s /\
    outputFile s = Some h /\
    length (har.Pages h) = 2 /\ length (har.Entries h) = 2 /\
    har.Pages h !! 1 = Some har.zeroPage /\
    har.Entries h !! 1 = Some har.zeroEntry.
Proof.
  split; [vm_compute; reflexivity|]. split; [vm_compute; reflexivity|].
  eexists. eexists. split; [vm_compute; reflexivity|].
  split; [reflexivity|]. repeat split.
Qed.

(** ** Sends and closes after the completion signal *)

(** C4. The lifecycle event is dispatched before a request event; the
    goroutine of the request then sends on the closed channel: the process
    panics, and nothing is written. *)
Theorem late_send_panics :
  exists s,
    exec okEnv [NavigateReturns; Dispatch []; Dispatch []; Send 0]
      (init [interactiveTime; RequestWillBeSent (sampleRequest "2" "Script")])
      = Some s /\
    panicked s = Some SendOnClosedChannel /\
    accepted s = [] /\
    outputFile s = None /\
    slog s = [].
Proof. eexists. split; [vm_compute; reflexivity|]. repeat split. Qed.

(** C7. Two lifecycle events named InteractiveTime in one session: the
    listener closes [harCh] on each, and the second close panics. *)
Theorem second_close_panics :
  exists s,
    exec okEnv [Dispatch []; Dispatch []] (init [interactiveTime; interactiveTime])
      = Some s /\
    panicked s = Some CloseOfClosedChannel /\
    outputFile s = None.
Proof. eexists. split; [vm_compute; reflexivity|]. repeat split. Qed.

(** ** Navigation errors *)

Lemma navigation_error_inv (env : Env) (err : string) :
  navigateErr env = Some err ->
  forall a s s',
    navFailedInv err s -> step env a s = Some s' -> navFailedInv err s'.
Proof.
  intros Herr a s s' (Hfile & Hpc & Hnav & Hret) Hstep.
  step_cases Hstep; unfold navFailedInv; simpl;
    try (destruct Hpc as [Hpc|[Hpc|Hpc]]; discriminate Hpc);
    repeat split; auto; intros;
    try (rewrite Hnav by done; done);
    try (match goal with H : _ \/ _ |- _ => by destruct H end).
Qed.

(** C6. When [chromedp.Run] fails: no run writes the file or logs the
    success line; a run in which main has returned has logged the
    navigation warning and nothing else; and [chromedp.Run] returning to a
    main that still waits for it ends the run in that way. *)
Theorem navigation_error_no_output (env : Env) (err : string)
    (evs : list Event) (sched : list Action) (s : State) :
  navigateErr env = Some err ->
  exec env sched (init evs) = Some s ->
  outputFile s = None /\
  (Info "HAR file generated successfully." ∉ slog s) /\
  (pc s = Returned -> slog s = [Warn ("error navigating: " +:+ err)]) /\
  (running s = true ->
   exists s', step env NavigateReturns s = Some s' /\
     pc s' = Returned /\ outputFile s' = None /\
     slog s' = [Warn ("error navigating: " +:+ err)]).
Proof.
  intros Herr Hexec.
  assert (navFailedInv err (init evs)) as Hinit.
  { split; [done|]. split; [by left|]. split; [done|]. by intros [?|?]. }
  pose proof (exec_invariant env (navFailedInv err)
                (navigation_error_inv env err Herr) sched _ _ Hinit Hexec)
    as (Hfile & Hpc & Hnav & Hret).
  split; [done|]. split; [|split; [auto|]].
  - destruct Hpc as [Hs|Hs].
    + rewrite Hnav by done. apply not_elem_of_nil.
    + rewrite Hret by done. intros Hin.
      apply list_elem_of_singleton in Hin. discriminate.
  - intros Hrun. rewrite step_eq, (running_alive _ Hrun).
    unfold running in Hrun.
    destruct Hpc as [Hs|[Hs|Hs]]; rewrite Hs in *;
      [|by destruct (panicked s)|by destruct (panicked s)].
    eexists. split; [done|]. unfold pastNavigate. rewrite Herr. simpl.
    rewrite Hnav by done. done.
Qed.

Lemma navigation_error_no_output_witness :
  exists s,
    exec failedNavigation [Dispatch []; Dispatch [0]; NavigateReturns]
      (init [RequestWillBeSent (sampleRequest "1" "Document");
             RequestWillBeSent (sampleRequest "2" "Font")]) = Some s /\
    pc s = Returned /\
    outputFile s = None /\
    slog s = [Warn "error navigating: context deadline exceeded"].
Proof.
  eexists. split; [vm_compute; reflexivity|].
  match goal with
  | |- context [pc ?s] =>
      destruct (navigation_error_no_output failedNavigation
                  "context deadline exceeded"
                  [RequestWillBeSent (sampleRequest "1" "Document");
                   RequestWillBeSent (sampleRequest "2" "Font")]
                  [Dispatch []; Dispatch [0]; NavigateReturns] s)
        as (Hfile & _ & Hlog & _); [reflexivity | vm_compute; reflexivity |]
  end.
  split; [reflexivity|]. split; [exact Hfile|].
  apply Hlog. reflexivity.
Defined.

(** ** A session without the completion signal *)

Lemma noCloseInv_step (env : Env) (a : Action) (s s' : State) :
  navigateErr env = None ->
  noCloseInv s -> step env a s = Some s' -> noCloseInv s'.
Proof.
  intros Hnav (Hch & Hpc & Hpanic & Hlog & Hfile & Hevs) Hstep.
  step_cases Hstep; unfold noCloseInv; simpl;
    try (apply Forall_cons in Hevs as [Hev Hevs]; simpl in Hev);
    try (destruct Hpc as [Hpc|Hpc]; discriminate Hpc);
    repeat split; auto; try done; try congruence.
Qed.

(** With [harCh] open, no event left and no goroutine left to send, the
    range loop waits for a value that nothing will send: no action is
    possible. *)
Lemma idle_drain_loop_stuck (env : Env) (s : State) :
  pc s = Draining -> harCh s = ChanOpen -> events s = [] ->
  Forall (fun g => g = []) (goroutines s) ->
  stuck env s.
Proof.
  intros Hpc Hch Hevs Hgs a. rewrite step_eq.
  destruct (alive s); [|done].
  destruct a as [picks| |i| |].
  - by rewrite Hevs.
  - by rewrite Hpc.
  - destruct (goroutines s !! i) as [g|] eqn:Hg; [|done].
    rewrite Forall_forall in Hgs.
    rewrite (Hgs g); [done|]. apply list_elem_of_lookup. by exists i.
  - by rewrite Hpc, Hch.
  - unfold mainStep. by rewrite Hpc, Hch.
Qed.

(** C8. A session in which navigation succeeds and no lifecycle event
    named InteractiveTime is ever delivered: in no run does main return,
    no run logs anything or writes the file or panics, and once the events
    and the goroutines are used up the range loop can never move again. *)
Theorem missing_completion_signal_hangs (env : Env) (evs : list Event)
    (sched : list Action) (s : State) :
  navigateErr env = None ->
  Forall (fun ev => ~ isInteractiveTime ev) evs ->
  exec env sched (init evs) = Some s ->
  pc s <> Returned /\ panicked s = None /\ slog s = [] /\ outputFile s = None /\
  (pc s = Draining -> events s = [] ->
   Forall (fun g => g = []) (goroutines s) -> stuck env s).
Proof.
  intros Hnav Hevs Hexec.
  assert (noCloseInv (init evs)) as Hinit.
  { split; [done|]. split; [by left|]. by repeat split. }
  pose proof (exec_invariant env noCloseInv
                (fun a s s' => noCloseInv_step env a s s' Hnav)
                sched _ _ Hinit Hexec)
    as (Hch & Hpc & Hpanic & Hlog & Hfile & _).
  split; [by destruct Hpc as [-> | ->]|].
  repeat split; try done.
  intros. by apply idle_drain_loop_stuck.
Qed.

Lemma missing_completion_signal_hangs_witness :
  exists s,
    exec okEnv [NavigateReturns; Dispatch []; Send 0; Dispatch []; Send 1;
                Dispatch []]
      (init [RequestWillBeSent (sampleRequest "1" "Document");
             ResponseReceived (sampleResponse "1" "Document");
             LifecycleEvent {| page.Name := "load" |}]) = Some s /\
    pc s = Draining /\ slog s = [] /\ outputFile s = None /\ stuck okEnv s.
Proof.
  eexists. split; [vm_compute; reflexivity|].
  match goal with
  | |- context [pc ?s] =>
      destruct (missing_completion_signal_hangs okEnv
                  [RequestWillBeSent (sampleRequest "1" "Document");
                   ResponseReceived (sampleResponse "1" "Document");
                   LifecycleEvent {| page.Name := "load" |}]
                  [NavigateReturns; Dispatch []; Send 0; Dispatch []; Send 1;
                   Dispatch []] s)
        as (_ & _ & Hlog & Hfile & Hstuck)
  end.
  - reflexivity.
  - repeat constructor; simpl; intros H; try exact H; discriminate H.
  - vm_compute. reflexivity.
  - split; [reflexivity|]. split; [exact Hlog|]. split; [exact Hfile|].
    apply Hstuck; [reflexivity | reflexivity | repeat constructor].
Defined.

(** ** Runs are finite *)

Lemma pending_sends_spawn (gs : list (list HarData)) (g : list HarData) :
  sum_list (length <$> (gs ++ [g])) = sum_list (length <$> gs) + length g.
Proof. rewrite fmap_app, sum_list_with_app. simpl. lia. Qed.

Lemma pending_sends_receive (gs : list (list HarData)) (i : nat)
    (data : HarData) (rest : list HarData) :
  gs !! i = Some (data :: rest) ->
  S (sum_list (length <$> <[i := rest]> gs)) = sum_list (length <$> gs).
Proof.
  revert i. induction gs as [|g gs IH]; intros [|i] Hi; simpl in *; try done.
  - simplify_eq. simpl. lia.
  - specialize (IH i Hi). unfold fmap in *. lia.
Qed.

Lemma processRequest_one_send (picks : list nat)
    (ev : network.EventRequestWillBeSent) :
  length (processRequest picks ev) = 1.
Proof. unfold processRequest. by case_decide. Qed.

Lemma processResponse_one_send (ev : network.EventResponseReceived) :
  length (processResponse ev) = 1.
Proof. unfold processResponse. by case_decide. Qed.

(** Every action uses up an event, a pending send, a stage of main or the
    life of the process. *)
Lemma step_decreases (env : Env) (a : Action) (s s' : State) :
  step env a s = Some s' -> runMeasure s' < runMeasure s.
Proof.
  intros Hstep. rewrite step_eq in Hstep.
  destruct (alive s) eqn:Halive; [|done].
  apply alive_inv in Halive as [Hpanic Hpc].
  unfold runMeasure, mainWeight. rewrite Hpanic.
  destruct (pc s) eqn:Hs; [| | | |done];
    destruct (harCh s) eqn:Hch;
    destruct a as [picks| |i| |]; try done;
    try (destruct (events s) as [|[r|r|l|] evs]; [done|..];
         injection Hstep as <-; unfold listener, closeChan;
         try destruct (decide (page.Name l = "InteractiveTime")); simpl;
         rewrite ?Hch; simpl;
         rewrite ?pending_sends_spawn, ?processRequest_one_send,
           ?processResponse_one_send, ?Hpanic, ?Hs, ?Hch; lia);
    try (destruct (goroutines s !! i) as [[|data rest]|] eqn:Hg; try done;
         injection Hstep as <-; simpl; rewrite ?Hpanic, ?Hs, ?Hch;
         try rewrite <- (pending_sends_receive _ _ _ _ Hg); lia);
    try (injection Hstep as <-; unfold pastNavigate, pastLoop;
         destruct (navigateErr env), (marshalErr env), (writeFileErr env);
         simpl; rewrite ?Hpanic, ?Hch; lia);
    try (unfold mainStep in Hstep; rewrite Hs, ?Hch in Hstep;
         destruct (navigateErr env), (marshalErr env), (writeFileErr env);
         simplify_eq; simpl; rewrite ?Hpanic, ?Hch; lia).
Qed.

Lemma exec_decreases (env : Env) (sched : list Action) (s s' : State) :
  exec env sched s = Some s' -> length sched + runMeasure s' <= runMeasure s.
Proof.
  revert s. induction sched as [|a sched IH]; intros s Hexec; simpl in *.
  - simplify_eq. lia.
  - destruct (step env a s) as [s1|] eqn:Hs; [|done].
    apply step_decreases in Hs. apply IH in Hexec. lia.
Qed.

(** X22. No run is longer than twice the number of events plus three
    actions: a process that neither returns nor panics ends up unable to
    move. *)
Lemma runs_are_finite (env : Env) (evs : list Event) (sched : list Action)
    (s : State) :
  exec env sched (init evs) = Some s -> length sched <= 2 * length evs + 3.
Proof.
  intros Hexec. apply exec_decreases in Hexec.
  assert (runMeasure (init evs) = 2 * length evs + 3) as Hinit
    by (unfold runMeasure, mainWeight; simpl; lia).
  lia.
Qed.

(** * Further properties *)

(** ** [headersToHAR] under any iteration order *)

(** X1. The order in which Go ranges over the header map changes the order
    of the output and nothing else: the outputs of any two iterations of
    the same mapping are permutations of each other. *)
Theorem headersToHAR_order_irrelevant (picks1 picks2 : list nat)
    (headers : gmap string GoValue) :
  headersToHAR picks1 headers ≡ₚ headersToHAR picks2 headers.
Proof.
  rewrite !headersToHAR_pairsOf.
  by rewrite (mapRange_perm picks1), (mapRange_perm picks2).
Qed.

Lemma pairsOf_length (h : string * GoValue) :
  length (pairsOf h) = pairCount h.2.
Proof.
  unfold pairsOf, pairCount. destruct h as [n v]. simpl.
  destruct v; simpl; try done. apply length_fmap.
Qed.

(** X2. The output has one pair per element of every [[]string] value and
    one pair per header of any other value, whatever the iteration
    order. *)
Theorem headersToHAR_length (picks : list nat) (headers : gmap string GoValue) :
  length (headersToHAR picks headers)
  = sum_list_with (fun h => pairCount h.2) (map_to_list headers).
Proof.
  rewrite headersToHAR_pairsOf, <- (mapRange_perm picks headers).
  induction (mapRange picks headers) as [|h l IH]; [done|].
  rewrite bind_cons, length_app, IH, pairsOf_length. done.
Qed.

(** X3. A pair is in the output exactly when its name is a header of the
    mapping and its value is an element of that header's [[]string] value
    or, for a value of any other type, the text [fmt.Sprint] gives for
    it. *)
Theorem headersToHAR_membership (picks : list nat)
    (headers : gmap string GoValue) (p : har.NameValuePair) :
  p ∈ headersToHAR picks headers <->
  (exists arr, headers !! har.Name p = Some (GStrings arr) /\ har.Value p ∈ arr)
  \/ (exists v, headers !! har.Name p = Some v /\ (forall arr, v <> GStrings arr)
                /\ har.Value p = Sprint v).
Proof.
  rewrite headersToHAR_pairsOf, list_elem_of_bind. split.
  - intros ([n v] & Hp & Hin). apply mapRange_lookup in Hin.
    pose proof (pairsOf_name _ _ Hp) as Hn. simpl in Hn. subst n.
    unfold pairsOf in Hp. simpl in Hp.
    destruct v as [| | | |arr|];
      try (right; eexists; split; [exact Hin|];
           apply list_elem_of_singleton in Hp; rewrite Hp; split; [done|done]).
    left. exists arr. split; [done|].
    apply list_elem_of_fmap in Hp as (value & Hp & Hv). by rewrite Hp.
  - intros [(arr & Hl & Hv)|(v & Hl & Hns & Hv)].
    + exists (har.Name p, GStrings arr). split; [|by apply mapRange_lookup].
      unfold pairsOf. simpl. apply list_elem_of_fmap.
      exists (har.Value p). split; [by destruct p|done].
    + exists (har.Name p, v). split; [|by apply mapRange_lookup].
      unfold pairsOf. simpl.
      destruct v as [| | | |arr|];
        try (apply list_elem_of_singleton; destruct p; simpl in *; by subst).
      by destruct (Hns arr).
Qed.

(** X4. Adding a header the mapping does not have adds the pairs of that
    header and leaves the others: the new output is a permutation of the
    pairs of the new header followed by the old output. *)
Theorem headersToHAR_insert (picks picks' : list nat)
    (headers : gmap string GoValue) (name : string) (v : GoValue) :
  headers !! name = None ->
  headersToHAR picks (<[name := v]> headers)
  ≡ₚ pairsOf (name, v) ++ headersToHAR picks' headers.
Proof.
  intros Hnone. rewrite !headersToHAR_pairsOf.
  rewrite (mapRange_perm picks), (mapRange_perm picks').
  rewrite (map_to_list_insert headers name v Hnone). by rewrite bind_cons.
Qed.

Lemma headersToHAR_insert_witness :
  headersToHAR [1] (<["Via" := GStrings ["1.1 a"; "1.1 b"]]> sampleHeaders)
  ≡ₚ pairsOf ("Via", GStrings ["1.1 a"; "1.1 b"]) ++ headersToHAR [0; 2] sampleHeaders.
Proof.
  apply (headersToHAR_insert [1] [0; 2] sampleHeaders "Via"
           (GStrings ["1.1 a"; "1.1 b"])).
  vm_compute. reflexivity.
Defined.

(** ** Records of requests and of responses *)

Lemma page_prefix_inj (a b : string) : "page_" +:+ a = "page_" +:+ b -> a = b.
Proof. simpl. intros H. by simplify_eq. Qed.

(** X5. No value sent for a request equals a value sent for a response:
    the page of a request has a non-empty id, the entry of a request has a
    request summary, and the records of responses have neither. *)
Theorem request_records_differ_from_placeholders (picks : list nat)
    (ev : network.EventRequestWillBeSent) (ev' : network.EventResponseReceived)
    (d d' : HarData) :
  d ∈ processRequest picks ev -> d' ∈ processResponse ev' -> d <> d'.
Proof.
  unfold processRequest, processResponse. intros Hd Hd' Heq. subst d'.
  repeat case_decide;
    apply list_elem_of_singleton in Hd, Hd'; subst d; simplify_eq.
Qed.

Lemma request_records_differ_from_placeholders_witness :
  DPage {| har.ID := "page_1000.1";
           har.PageStartedDateTime := "2024-03-07T09:05:01.12-05:30";
           har.Title := "https://google.com/" |}
  <> DPage har.zeroPage.
Proof.
  apply (request_records_differ_from_placeholders []
           (sampleRequest "1000.1" "Document") (sampleResponse "1000.1" "Document")).
  - vm_compute. left.
  - vm_compute. left.
Defined.

(** X6. The pageref of an entry equals the id of a page only if the two
    request events carry the same request id; and they are two events, one
    of type Document and one not. *)
Theorem page_key_determines_request (picks picks' : list nat)
    (ev ev' : network.EventRequestWillBeSent) (p : har.Page) (e : har.Entry) :
  DPage p ∈ processRequest picks ev ->
  DEntry e ∈ processRequest picks' ev' ->
  har.Pageref e = har.ID p ->
  network.RequestID ev' = network.RequestID ev /\ ev' <> ev.
Proof.
  unfold processRequest. intros Hp He Hkey.
  repeat case_decide;
    apply list_elem_of_singleton in Hp, He; simplify_eq.
  simpl in Hkey. split; [by apply page_prefix_inj|congruence].
Qed.

Lemma page_key_determines_request_witness :
  network.RequestID (sampleRequest "7" "Script")
    = network.RequestID (sampleRequest "7" "Document")
  /\ sampleRequest "7" "Script" <> sampleRequest "7" "Document".
Proof.
  eapply (page_key_determines_request [] [] (sampleRequest "7" "Document")
            (sampleRequest "7" "Script")).
  - vm_compute. left.
  - vm_compute. left.
  - reflexivity.
Defined.

(** ** What a run leaves behind *)

Lemma outcomeInv_init (env : Env) (evs : list Event) : outcomeInv env (init evs).
Proof. repeat split; simpl; intros; done. Qed.

Lemma outcomeInv_step (env : Env) (a : Action) (s s' : State) :
  outcomeInv env s -> step env a s = Some s' -> outcomeInv env s'.
Proof.
  intros (Hpc & Hret & Hpanic) Hstep. rewrite step_eq in Hstep.
  destruct (alive s) eqn:Halive; [|done].
  apply alive_inv in Halive as [Hnopanic Hnotret].
  assert (panicked s <> None -> False) as Hnp by (intros Hp; by apply Hp).
  unfold outcomeInv.
  destruct a as [picks| |i| |].
  - destruct (events s) as [|ev evs]; [done|]. injection Hstep as <-.
    destruct ev as [r|r|l|]; simpl; try done.
    unfold closeChan. simpl.
    destruct (decide (page.Name l = "InteractiveTime")); [|done].
    destruct (harCh s) eqn:Hch; simpl; rewrite ?Hch.
    + split; [|done]. destruct (pc s); intuition congruence.
    + split; [done|]. split; [|done]. intros Hr. by destruct (Hnotret Hr).
  - destruct (pc s) eqn:Hs; try done. injection Hstep as <-.
    unfold pastNavigate, lastLine, allSucceed. destruct Hpc as [Hlog Hfile].
    destruct (navigateErr env) eqn:Hnav; simpl; rewrite ?Hlog;
      repeat split; try done.
  - destruct (goroutines s !! i) as [[|data rest]|]; try done.
    destruct (harCh s) eqn:Hch, (pc s) eqn:Hs; try done;
      injection Hstep as <-; simpl; rewrite ?Hs;
      repeat split; try tauto; try done.
  - destruct (pc s) eqn:Hs; try done.
    destruct (harCh s) eqn:Hch; try done. injection Hstep as <-.
    destruct Hpc as (Hlog & Hfile & Hnav).
    unfold pastLoop, lastLine, allSucceed. rewrite Hnav.
    destruct (marshalErr env), (writeFileErr env); simpl; rewrite ?Hlog;
      repeat split; try done.
  - unfold mainStep in Hstep.
    destruct (pc s) eqn:Hs; try done.
    + destruct Hpc as [Hlog Hfile]. unfold lastLine, allSucceed.
      destruct (navigateErr env) eqn:Hnav; injection Hstep as <-; simpl;
        rewrite ?Hlog; repeat split; try done.
    + destruct (harCh s) eqn:Hch; [done|].
      destruct Hpc as (Hlog & Hfile & Hnav).
      unfold lastLine, allSucceed. rewrite Hnav.
      destruct (marshalErr env), (writeFileErr env); injection Hstep as <-;
        simpl; rewrite ?Hlog; repeat split; try done.
    + injection Hstep as <-. destruct Hpc as (Hlog & Hfile & Hall & Hch).
      unfold lastLine, allSucceed in *.
      destruct (navigateErr env), (marshalErr env), (writeFileErr env);
        try done.
      simpl. rewrite Hlog. repeat split; try done.
    + injection Hstep as <-. simpl. split; [done|]. split; [done|].
      intros Hp. by destruct (Hp Hnopanic).
Qed.

Lemma outcomeInv_exec (env : Env) (evs : list Event) (sched : list Action)
    (s : State) :
  exec env sched (init evs) = Some s -> outcomeInv env s.
Proof.
  apply (exec_invariant env (outcomeInv env) (outcomeInv_step env)).
  apply outcomeInv_init.
Qed.

(** The runs the process ends by a panic after main has left the loop:
    with the file written and no line logged, and with the success line
    logged as well. *)
Lemma panic_after_file_written :
  exec okEnv panicAfterWrite (init lateRequest) = Some panicAfterWriteEnd /\
  panicked panicAfterWriteEnd = Some SendOnClosedChannel /\
  outputFile panicAfterWriteEnd = Some emptyLog /\
  slog panicAfterWriteEnd = [].
Proof. split; [vm_compute; reflexivity|]. repeat split. Qed.

Lemma panic_after_success_line :
  exec okEnv panicAfterLog (init lateRequest) = Some panicAfterLogEnd /\
  panicked panicAfterLogEnd = Some SendOnClosedChannel /\
  outputFile panicAfterLogEnd = Some emptyLog /\
  slog panicAfterLogEnd = [Info "HAR file generated successfully."].
Proof. split; [vm_compute; reflexivity|]. repeat split. Qed.

(** X7. When [json.MarshalIndent] fails after a successful navigation, no
    run writes the file or logs the success line, and a run in which main
    has returned has left the drain loop on the closed channel and logged
    the marshaling warning and nothing else. *)
Theorem marshal_error_no_output (env : Env) (err : string) (evs : list Event)
    (sched : list Action) (s : State) :
  navigateErr env = None -> marshalErr env = Some err ->
  exec env sched (init evs) = Some s ->
  outputFile s = None /\
  (pc s = Returned ->
   slog s = [Warn ("error marshaling HAR object: " +:+ err)] /\
   harCh s = ChanClosed).
Proof.
  intros Hnav Hm Hexec.
  destruct (outcomeInv_exec _ _ _ _ Hexec) as (Hpc & _ & _).
  unfold lastLine, allSucceed in Hpc. rewrite Hnav, Hm in Hpc.
  destruct (pc s) eqn:Hs.
  - destruct Hpc as [_ Hfile]. by split.
  - destruct Hpc as (_ & Hfile & _). by split.
  - destruct Hpc as (_ & _ & Hall & _). done.
  - destruct Hpc as (_ & Hfile & _). by split.
  - destruct Hpc as (Hlog & Hfile & Hch). auto.
Qed.

Lemma marshal_error_no_output_witness :
  outputFile marshalFailsEnd = None /\
  slog marshalFailsEnd = [Warn "error marshaling HAR object: json: unsupported value"] /\
  harCh marshalFailsEnd = ChanClosed.
Proof.
  destruct (marshal_error_no_output marshalFails "json: unsupported value"
              twoRequests fullCapture marshalFailsEnd) as [Hfile Hret].
  - reflexivity.
  - reflexivity.
  - vm_compute. reflexivity.
  - split; [exact Hfile|]. apply Hret. reflexivity.
Defined.

(** X8. When [os.WriteFile] fails after a successful navigation and
    encoding, no run records a written file or logs the success line, and
    a run in which main has returned has logged the write warning and
    nothing else. *)
Theorem write_error_no_output (env : Env) (err : string) (evs : list Event)
    (sched : list Action) (s : State) :
  navigateErr env = None -> marshalErr env = None -> writeFileErr env = Some err ->
  exec env sched (init evs) = Some s ->
  outputFile s = None /\
  (pc s = Returned ->
   slog s = [Warn ("error writing HAR file: " +:+ err)] /\
   harCh s = ChanClosed).
Proof.
  intros Hnav Hm Hw Hexec.
  destruct (outcomeInv_exec _ _ _ _ Hexec) as (Hpc & _ & _).
  unfold lastLine, allSucceed in Hpc. rewrite Hnav, Hm, Hw in Hpc.
  destruct (pc s) eqn:Hs.
  - destruct Hpc as [_ Hfile]. by split.
  - destruct Hpc as (_ & Hfile & _). by split.
  - destruct Hpc as (_ & _ & Hall & _). done.
  - destruct Hpc as (_ & Hfile & _). by split.
  - destruct Hpc as (Hlog & Hfile & Hch). auto.
Qed.

Lemma write_error_no_output_witness :
  outputFile writeFailsEnd = None /\
  slog writeFailsEnd
    = [Warn "error writing HAR file: open output.har: permission denied"] /\
  harCh writeFailsEnd = ChanClosed.
Proof.
  destruct (write_error_no_output writeFails "open output.har: permission denied"
              twoRequests fullCapture writeFailsEnd) as [Hfile Hret].
  - reflexivity.
  - reflexivity.
  - reflexivity.
  - vm_compute. reflexivity.
  - split; [exact Hfile|]. apply Hret. reflexivity.
Defined.

(** X9. The success line is logged only after the file has been written:
    a run that has logged it has written the file, which holds the log of
    the drain loop, and has logged nothing else.  A file is written only
    when navigation, encoding and writing all succeeded and [harCh] is
    closed.  A run in which main has returned with the file written has
    logged the success line. *)
Theorem success_line_means_file_written (env : Env) (evs : list Event)
    (sched : list Action) (s : State) :
  exec env sched (init evs) = Some s ->
  (Info "HAR file generated successfully." ∈ slog s ->
   slog s = [Info "HAR file generated successfully."] /\
   outputFile s = Some (harObject s)) /\
  (outputFile s <> None ->
   outputFile s = Some (harObject s) /\ harCh s = ChanClosed /\
   navigateErr env = None /\ marshalErr env = None /\ writeFileErr env = None) /\
  (pc s = Returned -> outputFile s <> None ->
   Info "HAR file generated successfully." ∈ slog s).
Proof.
  intros Hexec.
  destruct (outcomeInv_exec _ _ _ _ Hexec) as (Hpc & _ & _).
  unfold lastLine, allSucceed in Hpc.
  destruct (pc s) eqn:Hs.
  - destruct Hpc as [Hlog Hfile]. rewrite Hlog, Hfile.
    split; [intros Hin; by apply elem_of_nil in Hin|]. by split.
  - destruct Hpc as (Hlog & Hfile & _). rewrite Hlog, Hfile.
    split; [intros Hin; by apply elem_of_nil in Hin|]. by split.
  - destruct Hpc as (Hlog & Hfile & Hall & Hch). rewrite Hlog.
    split; [intros Hin; by apply elem_of_nil in Hin|]. split; [|done].
    intros _.
    destruct (navigateErr env), (marshalErr env), (writeFileErr env); done.
  - destruct Hpc as (Hlog & Hfile & Hch). rewrite Hlog, Hfile.
    destruct (navigateErr env), (marshalErr env), (writeFileErr env);
      (split; [rewrite list_elem_of_singleton; intros; done|]);
      (split; [|done]); intros; try done.
    repeat split; auto.
  - destruct Hpc as (Hlog & Hfile & Hch). rewrite Hlog, Hfile.
    destruct (navigateErr env), (marshalErr env), (writeFileErr env);
      (split; [rewrite list_elem_of_singleton; intros; done|]);
      (split; [|intros; try done; by apply list_elem_of_singleton]);
      intros; try done.
    repeat split; auto.
Qed.

Lemma success_line_means_file_written_witness :
  slog panicAfterLogEnd = [Info "HAR file generated successfully."] /\
  outputFile panicAfterLogEnd = Some (harObject panicAfterLogEnd).
Proof.
  destruct (success_line_means_file_written okEnv lateRequest panicAfterLog
              panicAfterLogEnd) as (Hline & _ & _).
  - vm_compute. reflexivity.
  - apply Hline. vm_compute. left.
Defined.

(** X10. Main logs at most one line, and none before it has left
    [chromedp.Run] and the loop: no run has more than one line of log
    output, a run in which main is inside [chromedp.Run] or the loop has
    none, and a run in which main has returned has exactly one. *)
Theorem one_log_line_per_run (env : Env) (evs : list Event)
    (sched : list Action) (s : State) :
  exec env sched (init evs) = Some s ->
  length (slog s) <= 1 /\
  (pc s = Navigating \/ pc s = Draining -> slog s = []) /\
  (pc s = Returned -> length (slog s) = 1).
Proof.
  intros Hexec.
  destruct (outcomeInv_exec _ _ _ _ Hexec) as (Hpc & _ & _).
  destruct (pc s) eqn:Hs.
  - destruct Hpc as [Hlog _]. rewrite Hlog. simpl. split; [lia|]. by split.
  - destruct Hpc as (Hlog & _). rewrite Hlog. simpl. split; [lia|]. by split.
  - destruct Hpc as (Hlog & _). rewrite Hlog. simpl. split; [lia|].
    split; [by intros [?|?]|done].
  - destruct Hpc as (Hlog & _). rewrite Hlog. simpl. split; [lia|].
    split; [by intros [?|?]|done].
  - destruct Hpc as (Hlog & _). rewrite Hlog. simpl. split; [lia|].
    split; [by intros [?|?]|done].
Qed.

Lemma one_log_line_per_run_witness :
  length (slog panicAfterLogEnd) <= 1 /\
  slog lateSendEnd = [] /\
  length (slog fullCaptureEnd) = 1.
Proof.
  destruct (one_log_line_per_run okEnv lateRequest panicAfterLog panicAfterLogEnd)
    as (Hle & _ & _); [vm_compute; reflexivity|].
  destruct (one_log_line_per_run okEnv lateRequest lateSend lateSendEnd)
    as (_ & Hnone & _); [vm_compute; reflexivity|].
  destruct (one_log_line_per_run okEnv twoRequests fullCapture fullCaptureEnd)
    as (_ & _ & Hone); [vm_compute; reflexivity|].
  split; [exact Hle|]. split.
  - apply Hnone. right. reflexivity.
  - apply Hone. reflexivity.
Defined.

(** X11. A panic happens only after [harCh] has been closed, and a process
    that has panicked has not exited through the return of main; a panic
    that finds main inside [chromedp.Run] or in the loop leaves no log
    line and no file. *)
Theorem panic_only_after_close (env : Env) (evs : list Event)
    (sched : list Action) (s : State) (p : RuntimePanic) :
  exec env sched (init evs) = Some s ->
  panicked s = Some p ->
  harCh s = ChanClosed /\ pc s <> Returned /\
  (pc s = Navigating \/ pc s = Draining -> slog s = [] /\ outputFile s = None).
Proof.
  intros Hexec Hp.
  destruct (outcomeInv_exec _ _ _ _ Hexec) as (Hpc & Hret & Hpanic).
  split; [apply Hpanic; congruence|]. split.
  - intros Hr. specialize (Hret Hr). congruence.
  - intros [Hs|Hs]; rewrite Hs in Hpc.
    + done.
    + by destruct Hpc as (? & ? & _).
Qed.

Lemma panic_only_after_close_witness :
  harCh lateSendEnd = ChanClosed /\ pc lateSendEnd <> Returned /\
  slog lateSendEnd = [] /\ outputFile lateSendEnd = None.
Proof.
  destruct (panic_only_after_close okEnv lateRequest lateSend lateSendEnd
              SendOnClosedChannel) as (Hch & Hpc & Hnone).
  - vm_compute. reflexivity.
  - reflexivity.
  - split; [exact Hch|]. split; [exact Hpc|]. apply Hnone. right. reflexivity.
Defined.

(** ** The log after the channel is closed *)

Lemma exec_closed_channel (env : Env) (sched : list Action) (s s' : State) :
  harCh s = ChanClosed ->
  exec env sched s = Some s' ->
  harCh s' = ChanClosed /\ harObject s' = harObject s /\ accepted s' = accepted s.
Proof.
  revert s. induction sched as [|a sched IH]; intros s Hc Hexec; simpl in Hexec.
  - by simplify_eq.
  - destruct (step env a s) as [s1|] eqn:Hs; [|done].
    destruct (closed_channel_accepts_nothing env a s s1 Hc Hs) as (Ha & Ho & Hc1).
    destruct (IH s1 Hc1 Hexec) as (? & ? & ?). repeat split; congruence.
Qed.

(** X12. From the moment [harCh] is closed the run receives nothing more:
    whatever happens next, the channel stays closed and the log and the
    sequence of received values stay as they are. *)
Theorem closed_channel_freezes_log (env : Env) (sched : list Action)
    (s s' : State) :
  harCh s = ChanClosed ->
  exec env sched s = Some s' ->
  harCh s' = ChanClosed /\ harObject s' = harObject s /\ accepted s' = accepted s.
Proof. apply exec_closed_channel. Qed.

Lemma closed_channel_freezes_log_witness :
  harCh earlyCloseEnd = ChanClosed /\
  harObject earlyCloseEnd = harObject earlyCloseMid /\
  accepted earlyCloseEnd = accepted earlyCloseMid.
Proof.
  apply (closed_channel_freezes_log okEnv [NavigateReturns; RangeEnds]
           earlyCloseMid earlyCloseEnd).
  - reflexivity.
  - vm_compute. reflexivity.
Defined.

Lemma navigatingInv_step (env : Env) (a : Action) (s s' : State) :
  navigatingInv s -> step env a s = Some s' -> navigatingInv s'.
Proof.
  intros Hinv Hstep. unfold navigatingInv in *.
  step_cases Hstep; intros Hpc; try done; try congruence; by apply Hinv.
Qed.

Lemma navigatingInv_exec (env : Env) (evs : list Event) (sched : list Action)
    (s : State) :
  exec env sched (init evs) = Some s -> navigatingInv s.
Proof.
  intros Hexec.
  apply (exec_invariant env navigatingInv (navigatingInv_step env) sched
           (init evs) s); [|done].
  intros _. done.
Qed.

(** X13. While main is inside [chromedp.Run] the range loop does not run:
    nothing has been received and the log is the empty log of the
    literal, however many events have been dispatched. *)
Theorem nothing_received_while_navigating (env : Env) (evs : list Event)
    (sched : list Action) (s : State) :
  exec env sched (init evs) = Some s ->
  pc s = Navigating ->
  accepted s = [] /\ harObject s = emptyLog.
Proof. intros Hexec. by apply (navigatingInv_exec env evs sched). Qed.

Lemma nothing_received_while_navigating_witness :
  accepted earlyCloseMid = [] /\ harObject earlyCloseMid = emptyLog.
Proof.
  apply (nothing_received_while_navigating okEnv earlyCloseEvents earlyClose
           earlyCloseMid).
  - vm_compute. reflexivity.
  - reflexivity.
Defined.

(** X14. If the listener closes [harCh] while main is still inside
    [chromedp.Run], the capture is lost: in every continuation of the run
    the log stays empty, and a file that gets written holds the empty
    log. *)
Theorem close_during_navigation_loses_capture (env : Env) (evs : list Event)
    (sched1 sched2 : list Action) (s1 s2 : State) :
  exec env sched1 (init evs) = Some s1 ->
  pc s1 = Navigating -> harCh s1 = ChanClosed ->
  exec env sched2 s1 = Some s2 ->
  harObject s2 = emptyLog /\
  (forall h, outputFile s2 = Some h -> h = emptyLog).
Proof.
  intros Hexec1 Hpc Hc Hexec2.
  destruct (navigatingInv_exec env evs sched1 s1 Hexec1 Hpc) as [_ Hlog].
  destruct (exec_closed_channel env sched2 s1 s2 Hc Hexec2) as (_ & Hobj & _).
  assert (exec env (sched1 ++ sched2) (init evs) = Some s2) as Hexec.
  { rewrite exec_app, Hexec1. done. }
  pose proof (exec_invariant env logInv (logInv_step env) _ _ _
                (logInv_init evs) Hexec) as (_ & _ & _ & Hfile).
  split; [congruence|]. intros h Hh. rewrite (Hfile h Hh). congruence.
Qed.

Lemma close_during_navigation_loses_capture_witness :
  harObject earlyCloseEnd = emptyLog /\
  (forall h, outputFile earlyCloseEnd = Some h -> h = emptyLog).
Proof.
  apply (close_during_navigation_loses_capture okEnv earlyCloseEvents earlyClose
           [NavigateReturns; RangeEnds] earlyCloseMid earlyCloseEnd).
  - vm_compute. reflexivity.
  - reflexivity.
  - reflexivity.
  - vm_compute. reflexivity.
Defined.

(** ** The content of the file *)

Lemma metaInv_step (env : Env) (a : Action) (s s' : State) :
  metaInv s -> step env a s = Some s' -> metaInv s'.
Proof.
  intros (Hv & Hc & Hb) Hstep. unfold metaInv.
  step_cases Hstep; try done.
  match goal with d : HarData |- _ => destruct d end; done.
Qed.

(** X15. A file that is written holds version 1.2, the creator and the
    browser of the literal of lines 65-80, the pages received from [harCh]
    and the entries received from [harCh], each in receive order, and
    nothing else. *)
Theorem written_file_content (env : Env) (evs : list Event)
    (sched : list Action) (s : State) (h : har.Log) :
  exec env sched (init evs) = Some s ->
  outputFile s = Some h ->
  h = {| har.Version := "1.2";
         har.LogCreator := {| har.CreatorName := "chromedp";
                              har.CreatorVersion := "0.1.0";
                              har.CreatorComment := "HAR capture" |};
         har.Browser := {| har.CreatorName := "Google Chrome";
                           har.CreatorVersion := "90.0.4430.93";
                           har.CreatorComment := "" |};
         har.Pages := pagesOf (accepted s);
         har.Entries := entriesOf (accepted s) |}.
Proof.
  intros Hexec Hh.
  pose proof (exec_invariant env logInv (logInv_step env) _ _ _
                (logInv_init evs) Hexec) as (Hp & He & _ & Hfile).
  assert (metaInv (init evs)) as Hinit by (repeat split).
  pose proof (exec_invariant env metaInv (metaInv_step env) _ _ _ Hinit Hexec)
    as (Hv & Hc & Hb).
  rewrite (Hfile h Hh).
  destruct (harObject s) as [v c b ps es]. simpl in *. by subst.
Qed.

Lemma written_file_content_witness :
  harObject fullCaptureEnd =
    {| har.Version := "1.2";
       har.LogCreator := {| har.CreatorName := "chromedp";
                            har.CreatorVersion := "0.1.0";
                            har.CreatorComment := "HAR capture" |};
       har.Browser := {| har.CreatorName := "Google Chrome";
                         har.CreatorVersion := "90.0.4430.93";
                         har.CreatorComment := "" |};
       har.Pages := pagesOf (accepted fullCaptureEnd);
       har.Entries := entriesOf (accepted fullCaptureEnd) |}.
Proof.
  apply (written_file_content okEnv twoRequests fullCapture fullCaptureEnd).
  - vm_compute. reflexivity.
  - reflexivity.
Defined.

(** ** Length of a run *)

Lemma runs_are_finite_witness :
  length fullCapture <= 2 * length twoRequests + 3.
Proof.
  apply (runs_are_finite okEnv twoRequests fullCapture fullCaptureEnd).
  vm_compute. reflexivity.
Defined.

(** ** Where the records of the log come from *)

Lemma pendingPages_spawn (gs : list (list HarData)) (g : list HarData) :
  pendingPages (gs ++ [g]) = pendingPages gs + length (pagesOf g).
Proof. unfold pendingPages. rewrite sum_list_with_app. simpl. lia. Qed.

Lemma pendingEntries_spawn (gs : list (list HarData)) (g : list HarData) :
  pendingEntries (gs ++ [g]) = pendingEntries gs + length (entriesOf g).
Proof. unfold pendingEntries. rewrite sum_list_with_app. simpl. lia. Qed.

Lemma sum_list_with_insert {A} (f : A -> nat) (l : list A) (i : nat) (x y : A) :
  l !! i = Some y ->
  sum_list_with f (<[i := x]> l) + f y = sum_list_with f l + f x.
Proof.
  revert i. induction l as [|a l IH]; intros [|i] Hi; simpl in *; try done.
  - simplify_eq. lia.
  - specialize (IH i Hi). lia.
Qed.

Lemma pendingPages_receive (gs : list (list HarData)) (i : nat)
    (data : HarData) (rest : list HarData) :
  gs !! i = Some (data :: rest) ->
  pendingPages (<[i := rest]> gs) + length (pagesOf [data]) = pendingPages gs.
Proof.
  intros Hi. unfold pendingPages.
  pose proof (sum_list_with_insert (fun g => length (pagesOf g)) gs i rest _ Hi)
    as Hsum.
  cbv beta in Hsum. change (data :: rest) with ([data] ++ rest) in Hsum.
  rewrite pagesOf_app, length_app in Hsum. lia.
Qed.

Lemma pendingEntries_receive (gs : list (list HarData)) (i : nat)
    (data : HarData) (rest : list HarData) :
  gs !! i = Some (data :: rest) ->
  pendingEntries (<[i := rest]> gs) + length (entriesOf [data]) = pendingEntries gs.
Proof.
  intros Hi. unfold pendingEntries.
  pose proof (sum_list_with_insert (fun g => length (entriesOf g)) gs i rest _ Hi)
    as Hsum.
  cbv beta in Hsum. change (data :: rest) with ([data] ++ rest) in Hsum.
  rewrite entriesOf_app, length_app in Hsum. lia.
Qed.

Lemma pending_none (gs : list (list HarData)) :
  Forall (fun g => g = []) gs -> pendingPages gs = 0 /\ pendingEntries gs = 0.
Proof.
  unfold pendingPages, pendingEntries.
  induction 1 as [|g gs Hg _ [IHp IHe]]; [done|]. subst g. simpl. lia.
Qed.

Lemma countInv_step (env : Env) (evs : list Event) (a : Action) (s s' : State) :
  countInv evs s -> step env a s = Some s' -> countInv evs s'.
Proof.
  intros [Hp He] Hstep. rewrite step_eq in Hstep.
  destruct (alive s); [|done]. unfold countInv.
  destruct a as [picks| |i| |].
  - destruct (events s) as [|ev rest] eqn:Hevs; [done|]. injection Hstep as <-.
    unfold documentRequests, documentResponses, otherRequests, otherResponses in *.
    destruct ev as [r|r|l|]; simpl in *.
    + rewrite pendingPages_spawn, pendingEntries_spawn. unfold processRequest.
      destruct (decide (network.Type_ r = network.ResourceTypeDocument)) as [Hd|Hd].
      * rewrite (bool_decide_eq_true_2 _ Hd) in Hp, He. simpl in *. split; lia.
      * rewrite (bool_decide_eq_false_2 _ Hd) in Hp, He. simpl in *. split; lia.
    + rewrite pendingPages_spawn, pendingEntries_spawn. unfold processResponse.
      destruct (decide (network.RespType r = network.ResourceTypeDocument)) as [Hd|Hd].
      * rewrite (bool_decide_eq_true_2 _ Hd) in Hp, He. simpl in *. split; lia.
      * rewrite (bool_decide_eq_false_2 _ Hd) in Hp, He. simpl in *. split; lia.
    + unfold closeChan. simpl.
      destruct (decide (page.Name l = "InteractiveTime")), (harCh s); simpl;
        split; lia.
    + split; lia.
  - destruct (pc s); try done. injection Hstep as <-.
    unfold pastNavigate. destruct (navigateErr env); simpl; split; lia.
  - destruct (goroutines s !! i) as [[|data rest]|] eqn:Hg; try done.
    pose proof (pendingPages_receive _ _ _ _ Hg).
    pose proof (pendingEntries_receive _ _ _ _ Hg).
    destruct (harCh s), (pc s); try done; injection Hstep as <-; simpl;
      rewrite ?pagesOf_app, ?entriesOf_app, ?length_app; split; lia.
  - destruct (pc s), (harCh s); try done. injection Hstep as <-.
    unfold pastLoop. destruct (marshalErr env), (writeFileErr env); simpl;
      split; lia.
  - destruct (mainStep_frame _ _ _ Hstep) as (_ & -> & -> & -> & _). done.
Qed.

Lemma records_accounted (env : Env) (evs : list Event)
    (sched : list Action) (s : State) :
  exec env sched (init evs) = Some s ->
  length (har.Pages (harObject s)) <= documentRequests evs + documentResponses evs /\
  length (har.Entries (harObject s)) <= otherRequests evs + otherResponses evs /\
  (events s = [] -> Forall (fun g => g = []) (goroutines s) ->
   length (har.Pages (harObject s)) = documentRequests evs + documentResponses evs /\
   length (har.Entries (harObject s)) = otherRequests evs + otherResponses evs).
Proof.
  intros Hexec.
  pose proof (exec_invariant env logInv (logInv_step env) _ _ _
                (logInv_init evs) Hexec) as (Hpages & Hentries & _ & _).
  assert (countInv evs (init evs)) as Hinit by (split; simpl; lia).
  pose proof (exec_invariant env (countInv evs) (countInv_step env evs) _ _ _
                Hinit Hexec) as [Hp He].
  rewrite Hpages, Hentries. split; [lia|]. split; [lia|].
  intros Hevs Hdone. rewrite Hevs in Hp, He.
  destruct (pending_none _ Hdone) as [Hpp Hpe].
  rewrite Hpp in Hp. rewrite Hpe in He.
  unfold documentRequests, documentResponses, otherRequests, otherResponses in *.
  simpl in *. lia.
Qed.

(** X16. The log never holds more pages than the session has Document
    requests and Document responses, nor more entries than it has other
    requests and other responses; once every event has been dispatched and
    every goroutine has sent its value, it holds exactly one page for each
    of the former and one entry for each of the latter. *)
Theorem records_accounted_by_events (env : Env) (evs : list Event)
    (sched : list Action) (s : State) :
  exec env sched (init evs) = Some s ->
  length (har.Pages (harObject s)) <= documentRequests evs + documentResponses evs /\
  length (har.Entries (harObject s)) <= otherRequests evs + otherResponses evs /\
  (events s = [] -> Forall (fun g => g = []) (goroutines s) ->
   length (har.Pages (harObject s)) = documentRequests evs + documentResponses evs /\
   length (har.Entries (harObject s)) = otherRequests evs + otherResponses evs).
Proof. apply records_accounted. Qed.

Lemma records_accounted_by_events_witness :
  length (har.Pages (harObject fullCaptureEnd)) = 1 /\
  length (har.Entries (harObject fullCaptureEnd)) = 1.
Proof.
  destruct (records_accounted_by_events okEnv twoRequests fullCapture
              fullCaptureEnd) as (_ & _ & Heq).
  - vm_compute. reflexivity.
  - apply Heq.
    + reflexivity.
    + repeat constructor.
Defined.

Lemma elem_of_insert_inv {A} (l : list A) (i : nat) (x y : A) :
  y ∈ <[i := x]> l -> y = x \/ y ∈ l.
Proof.
  revert i. induction l as [|a l IH]; intros [|i] Hy; simpl in *.
  - by right.
  - by right.
  - apply elem_of_cons in Hy as [->|Hy]; [by left|]. right. by right.
  - apply elem_of_cons in Hy as [->|Hy]; [right; by left|].
    destruct (IH i Hy) as [->|Hin]; [by left|]. right. by right.
Qed.

Lemma provenanceInv_step (env : Env) (evs : list Event) (a : Action)
    (s s' : State) :
  provenanceInv evs s -> step env a s = Some s' -> provenanceInv evs s'.
Proof.
  intros (Hev & Hg & Ha) Hstep. rewrite step_eq in Hstep.
  destruct (alive s); [|done]. unfold provenanceInv.
  destruct a as [picks| |i| |].
  - destruct (events s) as [|ev rest] eqn:Hevs; [done|]. injection Hstep as <-.
    assert (ev ∈ evs) as Hin by (apply Hev; left).
    assert (forall ev', ev' ∈ rest -> ev' ∈ evs) as Hrest
      by (intros ev' Hin'; apply Hev; by right).
    destruct ev as [r|r|l|]; simpl.
    + split; [done|]. split; [|done]. intros g d Hgin Hd.
      apply elem_of_app in Hgin as [Hgin|Hgin]; [by eapply Hg|].
      apply list_elem_of_singleton in Hgin. subst g.
      left. by exists picks, r.
    + split; [done|]. split; [|done]. intros g d Hgin Hd.
      apply elem_of_app in Hgin as [Hgin|Hgin]; [by eapply Hg|].
      apply list_elem_of_singleton in Hgin. subst g.
      right. by exists r.
    + unfold closeChan. simpl.
      destruct (decide (page.Name l = "InteractiveTime")), (harCh s); simpl;
        done.
    + done.
  - destruct (pc s); try done. injection Hstep as <-.
    unfold pastNavigate. destruct (navigateErr env); done.
  - destruct (goroutines s !! i) as [[|data rest]|] eqn:Hgi; try done.
    assert (data :: rest ∈ goroutines s) as Hin
      by (apply list_elem_of_lookup; by exists i).
    destruct (harCh s), (pc s); try done; injection Hstep as <-; simpl; try done.
    split; [done|]. split.
    + intros g d Hgin Hd. apply elem_of_insert_inv in Hgin as [->|Hgin].
      * apply (Hg (data :: rest)); [done|by right].
      * by eapply Hg.
    + intros d Hd. apply elem_of_app in Hd as [Hd|Hd]; [by apply Ha|].
      apply list_elem_of_singleton in Hd. subst d.
      apply (Hg (data :: rest)); [done|by left].
  - destruct (pc s), (harCh s); try done. injection Hstep as <-.
    unfold pastLoop. destruct (marshalErr env), (writeFileErr env); done.
  - destruct (mainStep_frame _ _ _ Hstep) as (_ & -> & -> & -> & _). done.
Qed.

Lemma accepted_fromEvents (env : Env) (evs : list Event) (sched : list Action)
    (s : State) (d : HarData) :
  exec env sched (init evs) = Some s -> d ∈ accepted s -> fromEvents evs d.
Proof.
  intros Hexec.
  assert (provenanceInv evs (init evs)) as Hinit.
  { repeat split; simpl; try done; intros; exfalso; eapply elem_of_nil; eauto. }
  pose proof (exec_invariant env (provenanceInv evs) (provenanceInv_step env evs)
                _ _ _ Hinit Hexec) as (_ & _ & Ha).
  apply Ha.
Qed.

(** X17. Every page of the log is the page [processRequest] builds for a
    Document request of the session, or the zero-valued page sent for one
    of its Document responses: nothing else ever enters the page
    sequence. *)
Theorem log_pages_come_from_events (env : Env) (evs : list Event)
    (sched : list Action) (s : State) (p : har.Page) :
  exec env sched (init evs) = Some s ->
  p ∈ har.Pages (harObject s) ->
  (exists ev, RequestWillBeSent ev ∈ evs /\
     network.Type_ ev = network.ResourceTypeDocument /\
     p = {| har.ID := "page_" +:+ network.RequestID ev;
            har.PageStartedDateTime := time.FormatRFC3339Nano (network.WallTime ev);
            har.Title := network.URL (network.EvRequest ev) |})
  \/ (exists ev, ResponseReceived ev ∈ evs /\
        network.RespType ev = network.ResourceTypeDocument /\ p = har.zeroPage).
Proof.
  intros Hexec Hp.
  pose proof (exec_invariant env logInv (logInv_step env) _ _ _
                (logInv_init evs) Hexec) as (Hpages & _ & _ & _).
  rewrite Hpages in Hp. unfold pagesOf in Hp.
  apply list_elem_of_omap in Hp as (d & Hd & Hdp).
  destruct d as [p'|e]; [|done]. injection Hdp as ->.
  destruct (accepted_fromEvents env evs sched s _ Hexec Hd)
    as [(picks & ev & Hev & Hin)|(ev & Hev & Hin)].
  - left. exists ev. split; [done|]. unfold processRequest in Hin.
    case_decide; apply list_elem_of_singleton in Hin; simplify_eq. done.
  - right. exists ev. split; [done|]. unfold processResponse in Hin.
    case_decide; apply list_elem_of_singleton in Hin; simplify_eq. done.
Qed.

(** X18. Every entry of the log is the entry [processRequest] builds for a
    request of the session whose type is not Document, with the headers in
    the order of some iteration of the header map, or the zero-valued
    entry sent for one of its responses whose type is not Document. *)
Theorem log_entries_come_from_events (env : Env) (evs : list Event)
    (sched : list Action) (s : State) (e : har.Entry) :
  exec env sched (init evs) = Some s ->
  e ∈ har.Entries (harObject s) ->
  (exists picks ev, RequestWillBeSent ev ∈ evs /\
     network.Type_ ev <> network.ResourceTypeDocument /\
     e = {| har.Pageref := "page_" +:+ network.RequestID ev;
            har.StartedDateTime := time.FormatRFC3339Nano (network.WallTime ev);
            har.EntryRequest := Some
              {| har.Method := network.Method (network.EvRequest ev);
                 har.URL := network.URL (network.EvRequest ev);
                 har.Headers :=
                   headersToHAR picks (network.Headers (network.EvRequest ev)) |} |})
  \/ (exists ev, ResponseReceived ev ∈ evs /\
        network.RespType ev <> network.ResourceTypeDocument /\ e = har.zeroEntry).
Proof.
  intros Hexec He.
  pose proof (exec_invariant env logInv (logInv_step env) _ _ _
                (logInv_init evs) Hexec) as (_ & Hentries & _ & _).
  rewrite Hentries in He. unfold entriesOf in He.
  apply list_elem_of_omap in He as (d & Hd & Hde).
  destruct d as [p|e']; [done|]. injection Hde as ->.
  destruct (accepted_fromEvents env evs sched s _ Hexec Hd)
    as [(picks & ev & Hev & Hin)|(ev & Hev & Hin)].
  - left. exists picks, ev. split; [done|]. unfold processRequest in Hin.
    case_decide; apply list_elem_of_singleton in Hin; simplify_eq. done.
  - right. exists ev. split; [done|]. unfold processResponse in Hin.
    case_decide; apply list_elem_of_singleton in Hin; simplify_eq. done.
Qed.

Lemma log_pages_come_from_events_witness :
  (exists ev, RequestWillBeSent ev ∈ twoRequests /\
     network.Type_ ev = network.ResourceTypeDocument /\
     firstPage =
       {| har.ID := "page_" +:+ network.RequestID ev;
          har.PageStartedDateTime := time.FormatRFC3339Nano (network.WallTime ev);
          har.Title := network.URL (network.EvRequest ev) |})
  \/ (exists ev, ResponseReceived ev ∈ twoRequests /\
        network.RespType ev = network.ResourceTypeDocument /\
        firstPage = har.zeroPage).
Proof.
  apply (log_pages_come_from_events okEnv twoRequests fullCapture fullCaptureEnd
           firstPage).
  - vm_compute. reflexivity.
  - vm_compute. left.
Defined.

Lemma log_entries_come_from_events_witness :
  (exists picks ev, RequestWillBeSent ev ∈ twoRequests /\
     network.Type_ ev <> network.ResourceTypeDocument /\
     firstEntry =
       {| har.Pageref := "page_" +:+ network.RequestID ev;
          har.StartedDateTime := time.FormatRFC3339Nano (network.WallTime ev);
          har.EntryRequest := Some
            {| har.Method := network.Method (network.EvRequest ev);
               har.URL := network.URL (network.EvRequest ev);
               har.Headers :=
                 headersToHAR picks (network.Headers (network.EvRequest ev)) |} |})
  \/ (exists ev, ResponseReceived ev ∈ twoRequests /\
        network.RespType ev <> network.ResourceTypeDocument /\
        firstEntry = har.zeroEntry).
Proof.
  apply (log_entries_come_from_events okEnv twoRequests fullCapture fullCaptureEnd
           firstEntry).
  - vm_compute. reflexivity.
  - vm_compute. left.
Defined.

(** ** A schedule that captures everything *)

Lemma processRequest_single (picks : list nat) (ev : network.EventRequestWillBeSent) :
  exists d, processRequest picks ev = [d].
Proof. unfold processRequest. case_decide; eauto. Qed.

Lemma processResponse_single (ev : network.EventResponseReceived) :
  exists d, processResponse ev = [d].
Proof. unfold processResponse. case_decide; eauto. Qed.

(** With the loop running and the channel open, a freshly started
    goroutine hands over its one value at once. *)
Lemma spawn_then_send (env : Env) (s : State) (d : HarData) :
  pc s = Draining -> harCh s = ChanOpen -> panicked s = None ->
  step env (Send (length (goroutines s))) (spawn [d] s)
  = Some (receive (length (goroutines s)) d [] (spawn [d] s)).
Proof.
  intros Hpc Hch Hp. unfold step, alive. simpl. rewrite Hp, Hpc, Hch.
  by rewrite list_lookup_middle.
Qed.

Lemma exec_cons (env : Env) (a : Action) (sched : list Action) (s : State) :
  exec env (a :: sched) s = step env a s ≫= exec env sched.
Proof. reflexivity. Qed.

Lemma dispatch_step (env : Env) (picks : list nat) (ev : Event)
    (rest : list Event) (s : State) :
  running s = true -> events s = ev :: rest ->
  step env (Dispatch picks) s = Some (listener picks ev (setEvents rest s)).
Proof. intros Hrun Hevs. unfold step. by rewrite (running_alive _ Hrun), Hevs. Qed.

Lemma exec_seq (env : Env) (sched1 sched2 : list Action) (s s1 s2 : State) :
  exec env sched1 s = Some s1 -> exec env sched2 s1 = Some s2 ->
  exec env (sched1 ++ sched2) s = Some s2.
Proof. intros H1 H2. by rewrite exec_app, H1. Qed.

Lemma serial_run (env : Env) (evs rest : list Event) (s : State) :
  Forall (fun ev => ~ isInteractiveTime ev) evs ->
  pc s = Draining -> harCh s = ChanOpen -> panicked s = None ->
  events s = evs ++ rest ->
  Forall (fun g => g = []) (goroutines s) ->
  exists s',
    exec env (serialSchedule evs (length (goroutines s))) s = Some s' /\
    pc s' = Draining /\ harCh s' = ChanOpen /\ panicked s' = None /\
    events s' = rest /\ Forall (fun g => g = []) (goroutines s').
Proof.
  revert s. induction evs as [|ev evs IH]; intros s Hni Hpc Hch Hp Hevs Hgs.
  - exists s. by repeat split.
  - apply Forall_cons in Hni as [Hev Hni].
    assert (running s = true) as Hrun by (unfold running; by rewrite Hp, Hpc).
    assert (forall d,
      exists s',
        exec env (Send (length (goroutines s)) ::
                  serialSchedule evs (S (length (goroutines s))))
          (spawn [d] (setEvents (evs ++ rest) s)) = Some s' /\
        pc s' = Draining /\ harCh s' = ChanOpen /\ panicked s' = None /\
        events s' = rest /\ Forall (fun g => g = []) (goroutines s')) as Hsend.
    { intros d. rewrite exec_cons.
      pose proof (spawn_then_send env (setEvents (evs ++ rest) s) d Hpc Hch Hp)
        as Hstep.
      simpl in Hstep. rewrite Hstep. simpl.
      assert (Forall (fun g => g = [])
                (goroutines (receive (length (goroutines s)) d []
                               (spawn [d] (setEvents (evs ++ rest) s))))) as Hgs'.
      { simpl. rewrite insert_app_r_alt, Nat.sub_diag by lia. simpl.
        apply Forall_app. split; [done|]. repeat constructor. }
      destruct (IH (receive (length (goroutines s)) d []
                      (spawn [d] (setEvents (evs ++ rest) s)))
                  Hni Hpc Hch Hp eq_refl Hgs')
        as (s' & Hexec & Hres).
      simpl in Hexec. rewrite length_insert, length_app in Hexec. simpl in Hexec.
      rewrite Nat.add_1_r in Hexec. by exists s'. }
    destruct ev as [r|r|l|]; simpl serialSchedule;
      rewrite exec_cons, (dispatch_step env [] _ (evs ++ rest) s Hrun Hevs);
      simpl.
    + destruct (processRequest_single [] r) as [d ->]. apply Hsend.
    + destruct (processResponse_single r) as [d ->]. apply Hsend.
    + simpl in Hev. rewrite decide_False by done.
      apply (IH (setEvents (evs ++ rest) s)); done.
    + apply (IH (setEvents (evs ++ rest) s)); done.
Qed.

Lemma filter_snoc_false {A} (f : A -> bool) (l : list A) (x : A) :
  f x = false -> List.filter f (l ++ [x]) = List.filter f l.
Proof. intros Hx. rewrite List.filter_app. simpl. rewrite Hx. apply app_nil_r. Qed.

(** X19. When navigation, encoding and writing succeed and the lifecycle
    event named InteractiveTime comes once, after all other events, there
    is a run that loses nothing: under the schedule that lets every
    goroutine send before the next event is dispatched, main returns with
    the file written, one page for every Document request and Document
    response and one entry for every other request and response. *)
Theorem complete_capture_is_possible (env : Env) (evs : list Event) :
  navigateErr env = None -> marshalErr env = None -> writeFileErr env = None ->
  Forall (fun ev => ~ isInteractiveTime ev) evs ->
  exists s,
    exec env (captureSchedule evs) (init (evs ++ [interactiveTime])) = Some s /\
    pc s = Returned /\ panicked s = None /\
    outputFile s = Some (harObject s) /\
    slog s = [Info "HAR file generated successfully."] /\
    length (har.Pages (harObject s)) = documentRequests evs + documentResponses evs /\
    length (har.Entries (harObject s)) = otherRequests evs + otherResponses evs.
Proof.
  intros Hnav Hm Hw Hni.
  destruct (serial_run env evs [interactiveTime]
              (setPc Draining (init (evs ++ [interactiveTime]))))
    as (s1 & Hexec1 & Hpc1 & Hch1 & Hp1 & Hevs1 & Hgs1); try done.
  change (length (goroutines (setPc Draining (init (evs ++ [interactiveTime])))))
    with 0 in Hexec1.
  assert (exec env [NavigateReturns] (init (evs ++ [interactiveTime]))
          = Some (setPc Draining (init (evs ++ [interactiveTime])))) as Hexec0.
  { rewrite exec_cons, step_eq. unfold pastNavigate. simpl. by rewrite Hnav. }
  assert (running s1 = true) as Hrun1 by (unfold running; by rewrite Hp1, Hpc1).
  assert (exec env [Dispatch []] s1 = Some (setChan ChanClosed (setEvents [] s1)))
    as Hexec2.
  { rewrite exec_cons, (dispatch_step env [] interactiveTime [] s1 Hrun1 Hevs1).
    simpl. unfold closeChan. simpl. by rewrite Hch1. }
  assert (exec env [RangeEnds] (setChan ChanClosed (setEvents [] s1))
          = Some (setPc Returned
                    (logLine (Info "HAR file generated successfully.")
                       (writeFile (setChan ChanClosed (setEvents [] s1))))))
    as Hexec3.
  { rewrite exec_cons, step_eq. unfold alive, pastLoop. simpl.
    by rewrite Hp1, Hpc1, Hm, Hw. }
  pose proof (exec_seq _ _ _ _ _ _ Hexec0
                (exec_seq _ _ _ _ _ _ Hexec1
                   (exec_seq _ _ _ _ _ _ Hexec2 Hexec3))) as Hexec.
  change ([NavigateReturns] ++ serialSchedule evs 0 ++ [Dispatch []] ++ [RangeEnds])
    with (captureSchedule evs) in Hexec.
  set (s := setPc Returned
              (logLine (Info "HAR file generated successfully.")
                 (writeFile (setChan ChanClosed (setEvents [] s1))))) in *.
  assert (pc s = Returned) as Hpc by done.
  assert (panicked s = None) as Hp by done.
  assert (outputFile s = Some (harObject s)) as Hfile by done.
  assert (events s = []) as Hevs by done.
  assert (goroutines s = goroutines s1) as Hgs by done.
  pose proof (outcomeInv_exec _ _ _ _ Hexec) as (Hout & _ & _).
  rewrite Hpc in Hout. destruct Hout as (Hline & _).
  unfold lastLine in Hline. rewrite Hnav, Hm, Hw in Hline.
  destruct (records_accounted env _ _ _ Hexec) as (_ & _ & Heq).
  rewrite <- Hgs in Hgs1. destruct (Heq Hevs Hgs1) as [Hpages Hentries].
  exists s. repeat split; try done.
  - rewrite Hpages. unfold documentRequests, documentResponses.
    by rewrite !filter_snoc_false.
  - rewrite Hentries. unfold otherRequests, otherResponses.
    by rewrite !filter_snoc_false.
Qed.

Lemma complete_capture_is_possible_witness :
  exists s,
    exec okEnv
      (captureSchedule [RequestWillBeSent (sampleRequest "1" "Document");
                        RequestWillBeSent (sampleRequest "2" "Image");
                        ResponseReceived (sampleResponse "2" "Image")])
      (init ([RequestWillBeSent (sampleRequest "1" "Document");
              RequestWillBeSent (sampleRequest "2" "Image");
              ResponseReceived (sampleResponse "2" "Image")]
             ++ [interactiveTime])) = Some s /\
    pc s = Returned /\ panicked s = None /\
    outputFile s = Some (harObject s) /\
    slog s = [Info "HAR file generated successfully."] /\
    length (har.Pages (harObject s))
      = documentRequests [RequestWillBeSent (sampleRequest "1" "Document");
                          RequestWillBeSent (sampleRequest "2" "Image");
                          ResponseReceived (sampleResponse "2" "Image")]
        + documentResponses [RequestWillBeSent (sampleRequest "1" "Document");
                             RequestWillBeSent (sampleRequest "2" "Image");
                             ResponseReceived (sampleResponse "2" "Image")] /\
    length (har.Entries (harObject s))
      = otherRequests [RequestWillBeSent (sampleRequest "1" "Document");
                       RequestWillBeSent (sampleRequest "2" "Image");
                       ResponseReceived (sampleResponse "2" "Image")]
        + otherResponses [RequestWillBeSent (sampleRequest "1" "Document");
                          RequestWillBeSent (sampleRequest "2" "Image");
                          ResponseReceived (sampleResponse "2" "Image")].
Proof.
  apply (complete_capture_is_possible okEnv
           [RequestWillBeSent (sampleRequest "1" "Document");
            RequestWillBeSent (sampleRequest "2" "Image");
            ResponseReceived (sampleResponse "2" "Image")]).
  - reflexivity.
  - reflexivity.
  - reflexivity.
  - repeat constructor; simpl; intros H; exact H.
Defined.

(** ** The lifecycle events and the channel *)

Lemma closeInv_step (env : Env) (evs : list Event) (a : Action) (s s' : State) :
  closeInv evs s -> step env a s = Some s' -> closeInv evs s'.
Proof.
  intros [Hcount Hpc] Hstep. rewrite step_eq in Hstep.
  destruct (alive s) eqn:Hrun; [|done].
  apply alive_inv in Hrun as [Hnopanic _].
  unfold closeInv, closes, interactiveTimes in *. rewrite Hnopanic in Hcount.
  destruct a as [picks| |i| |].
  - destruct (events s) as [|ev rest] eqn:Hevs; [done|]. injection Hstep as <-.
    destruct ev as [r|r|l|]; simpl in *; rewrite ?Hnopanic; try done.
    unfold closeChan. simpl.
    destruct (decide (page.Name l = "InteractiveTime")) as [Hl|Hl].
    + rewrite (bool_decide_eq_true_2 _ Hl) in Hcount.
      destruct (harCh s) eqn:Hch; simpl in *; rewrite ?Hch, ?Hnopanic;
        split; try done; lia.
    + rewrite (bool_decide_eq_false_2 _ Hl) in Hcount.
      simpl. rewrite Hnopanic. split; [done|congruence].
  - destruct (pc s); try done. injection Hstep as <-.
    unfold pastNavigate. destruct (navigateErr env); simpl; rewrite Hnopanic;
      split; [done|congruence | done | congruence].
  - destruct (goroutines s !! i) as [[|data rest]|]; try done.
    destruct (harCh s) eqn:Hch, (pc s); try done; injection Hstep as <-; simpl;
      rewrite ?Hch, ?Hnopanic; split; done.
  - destruct (pc s), (harCh s) eqn:Hch; try done. injection Hstep as <-.
    unfold pastLoop. destruct (marshalErr env), (writeFileErr env); simpl;
      rewrite Hch, Hnopanic; split; done.
  - destruct (mainStep_frame _ _ _ Hstep) as (-> & _ & -> & _ & _ & ->).
    rewrite Hnopanic. done.
Qed.

(** X20. The listener closes [harCh] at the first lifecycle event named
    InteractiveTime it is given, panics at the second and is never given a
    third: in every run the channel is open exactly as long as no such
    event has been dispatched, and the process has panicked on a close of
    the closed channel exactly when two of them have. *)
Theorem interactive_times_and_channel (env : Env) (evs : list Event)
    (sched : list Action) (s : State) :
  exec env sched (init evs) = Some s ->
  (harCh s = ChanOpen <-> interactiveTimes (events s) = interactiveTimes evs) /\
  (panicked s = Some CloseOfClosedChannel <->
   interactiveTimes (events s) + 2 = interactiveTimes evs) /\
  interactiveTimes evs <= interactiveTimes (events s) + 2.
Proof.
  intros Hexec.
  assert (closeInv evs (init evs)) as Hinit by (split; [apply Nat.add_0_r|done]).
  pose proof (exec_invariant env (closeInv evs) (closeInv_step env evs) _ _ _
                Hinit Hexec) as [Hcount Hp].
  unfold closes in Hcount.
  destruct (harCh s) eqn:Hch.
  - split; [split; intros; [lia|done]|]. split; [|lia].
    split; [|lia]. intros Hpanic. specialize (Hp Hpanic). congruence.
  - destruct (panicked s) as [[|]|] eqn:Hpanic;
      (split; [split; intros; [done|lia]|]); (split; [|lia]);
      split; intros; try done; lia.
Qed.

Lemma interactive_times_and_channel_witness :
  panicked doubleCloseEnd = Some CloseOfClosedChannel /\
  interactiveTimes (events doubleCloseEnd) = 1.
Proof.
  destruct (interactive_times_and_channel okEnv
              [LifecycleEvent {| page.Name := "InteractiveTime" |};
               LifecycleEvent {| page.Name := "InteractiveTime" |};
               LifecycleEvent {| page.Name := "InteractiveTime" |}]
              [Dispatch []; Dispatch []] doubleCloseEnd) as (_ & Hiff & _).
  - vm_compute. reflexivity.
  - split; [|reflexivity]. apply Hiff. reflexivity.
Defined.

(** ** Deadlock *)

(** X21. A process that is still alive can do nothing more in one
    situation only: main waits in the range loop on the open channel, the
    driver has no event left and no goroutine has a value left to send.
    In every other state of a live process some action is possible. *)
Theorem stuck_iff_idle_loop (env : Env) (s : State) :
  alive s = true ->
  (stuck env s <-> idleLoop s).
Proof.
  intros Hrun. split.
  - intros Hstuck. unfold idleLoop.
    pose proof (Hstuck MainStep) as Hmain.
    pose proof (Hstuck (Dispatch [])) as Hdisp.
    unfold step in Hmain, Hdisp. rewrite Hrun in Hmain, Hdisp.
    pose proof (alive_inv s Hrun) as [_ Hnotret].
    unfold mainStep in Hmain.
    destruct (pc s) eqn:Hpc; try done.
    + by destruct (navigateErr env).
    + destruct (harCh s) eqn:Hch;
        [|by destruct (marshalErr env), (writeFileErr env)].
      destruct (events s) as [|ev rest]; try done.
      repeat split. apply Forall_lookup. intros i g Hg.
      pose proof (Hstuck (Send i)) as Hsend. unfold step in Hsend.
      rewrite Hrun, Hg, Hch, Hpc in Hsend. by destruct g.
  - intros (Hpc & Hch & Hevs & Hgs). by apply idle_drain_loop_stuck.
Qed.

Lemma stuck_iff_idle_loop_witness :
  stuck okEnv idleLoopState.
Proof.
  apply (stuck_iff_idle_loop okEnv idleLoopState).
  - reflexivity.
  - repeat split. repeat constructor.
Defined.
